(** * The Heston model of heston.py: pricing and path simulation

    A shallow embedding of [src/heston.py] and the properties its
    specification states about it.

    Numbers.  Python floats and NumPy float64 entries are read as real
    numbers ([R]) and complex values as pairs of reals: arithmetic is exact,
    there is no overflow, no NaN and no rounding.  The one place where
    rounding is kept visible is the log-price round trip of
    [simulate_euler] (the initial price is stored as [math.log(s)] and
    returned as [np.exp] of it): those two library calls are parameters of
    the embedding, to be read either as [ln] and [exp] or as functions that
    return binary64 numbers.

    Exceptions.  A Python operation that raises is a [Raise e]; the
    operations that raise in exact arithmetic are scalar division by zero
    ([ZeroDivisionError]), [math.sqrt] and [math.log] outside their domain
    ([ValueError]), [math.sqrt] of an array whose size is not one
    ([TypeError]) and the lookup of an attribute a module does not have
    ([AttributeError]).  NumPy's elementwise operations do not raise, and
    neither does [math.log] in the two functions compiled by Numba, where
    only a division by zero raises.  The integrand of Heston's formula is
    compiled to a C callback, which cannot raise: where its body divides by
    zero the callback returns [0.0].

    Collaborators.  The random variates, SciPy's quadrature, root finder,
    numerical derivative and Bessel function are section variables, and so
    is what the lookup of [cmath.abs] yields; under CPython it raises
    ([cmath_abs_cpython]). *)

From Stdlib Require Import Reals Lra Lia List ZArith Bool.
Import ListNotations.

Open Scope R_scope.

(** ** Python results *)

Inductive exn : Type :=
| ZeroDivisionError
| ValueError
| TypeError
| AttributeError.

Inductive result (A : Type) : Type :=
| Ok (a : A)
| Raise (e : exn).

Arguments Ok {A} a.
Arguments Raise {A} e.

Definition bind {A B : Type} (m : result A) (k : A -> result B) : result B :=
  match m with
  | Ok a => k a
  | Raise e => Raise e
  end.

Notation "x <- m ;; k" := (bind m (fun x => k))
  (at level 61, m at next level, right associativity).

(** [for x in xs: ...] collecting one value per element; the first
    exception ends the loop. *)
Fixpoint mapM {A B : Type} (f : A -> result B) (xs : list A) : result (list B) :=
  match xs with
  | [] => Ok []
  | x :: xs' => y <- f x ;; ys <- mapM f xs' ;; Ok (y :: ys)
  end.

(** [x / y] on Python scalars. *)
Definition pydiv (x y : R) : result R :=
  if Req_dec_T y 0 then Raise ZeroDivisionError else Ok (x / y).

(** [math.sqrt(x)] on a Python scalar. *)
Definition math_sqrt (x : R) : result R :=
  if Rlt_dec x 0 then Raise ValueError else Ok (sqrt x).

(** [math.sqrt(a)] on a NumPy array: only an array with exactly one
    element converts to a scalar. *)
Definition math_sqrt_array (a : list R) : result R :=
  match a with
  | [x] => math_sqrt x
  | _ => Raise TypeError
  end.

(** [math.exp(a)] on a NumPy array. *)
Definition math_exp_array (a : list R) : result R :=
  match a with
  | [x] => Ok (exp x)
  | _ => Raise TypeError
  end.

(** ** Complex numbers *)

Record C : Type := mkC { re : R; im : R }.

Declare Scope C_scope.
Delimit Scope C_scope with C.
Bind Scope C_scope with C.

Definition RtoC (x : R) : C := mkC x 0.
Definition Ci : C := mkC 0 1.
Definition Cadd (a b : C) : C := mkC (re a + re b) (im a + im b).
Definition Copp (a : C) : C := mkC (- re a) (- im a).
Definition Csub (a b : C) : C := mkC (re a - re b) (im a - im b).
Definition Cmul (a b : C) : C :=
  mkC (re a * re b - im a * im b) (re a * im b + im a * re b).
Definition Cnorm2 (a : C) : R := re a * re a + im a * im a.
Definition Cmod (a : C) : R := sqrt (Cnorm2 a).
Definition Cquot (a b : C) : C :=
  mkC ((re a * re b + im a * im b) / Cnorm2 b)
      ((im a * re b - re a * im b) / Cnorm2 b).

Definition C_is_zero (a : C) : {re a = 0 /\ im a = 0} + {~ (re a = 0 /\ im a = 0)}.
Proof.
  destruct (Req_dec_T (re a) 0) as [Hr | Hr].
  - destruct (Req_dec_T (im a) 0) as [Hi | Hi].
    + left; split; assumption.
    + right; intros [_ H]; exact (Hi H).
  - right; intros [H _]; exact (Hr H).
Defined.

(** [a / b] on complex scalars. *)
Definition Cdiv (a b : C) : result C :=
  if C_is_zero b then Raise ZeroDivisionError else Ok (Cquot a b).

(** [cmath.sqrt]: the principal square root. *)
Definition Csqrt (a : C) : C :=
  mkC (sqrt ((Cmod a + re a) / 2))
      ((if Rlt_dec (im a) 0 then -1 else 1) * sqrt ((Cmod a - re a) / 2)).

(** [cmath.exp]. *)
Definition Cexp (a : C) : C := mkC (exp (re a) * cos (im a)) (exp (re a) * sin (im a)).

(** [math.atan2]. *)
Definition atan2 (y x : R) : R :=
  if Rlt_dec 0 x then atan (y / x)
  else if Rlt_dec x 0 then
         (if Rlt_dec y 0 then atan (y / x) - PI else atan (y / x) + PI)
       else if Rlt_dec 0 y then PI / 2
            else if Rlt_dec y 0 then - PI / 2 else 0.

(** [cmath.log]: the principal logarithm. *)
Definition Clog (a : C) : C := mkC (ln (Cmod a)) (atan2 (im a) (re a)).

Infix "+" := Cadd : C_scope.
Infix "-" := Csub : C_scope.
Infix "*" := Cmul : C_scope.
Notation "- a" := (Copp a) : C_scope.
Coercion RtoC : R >-> C.

(** ** The model *)

(** [@dataclass class Heston]: seven fields and no [__post_init__]. *)
Record Heston : Type := mkHeston {
  s : R;
  v : R;
  kappa : R;
  theta : R;
  sigma : R;
  rho : R;
  r : R
}.

(** [Heston(s, v, kappa, theta, sigma, rho, r=0)]: the generated
    [__init__] assigns the fields. *)
Definition Heston_init (s v kappa theta sigma rho : R) (r : option R) : result Heston :=
  Ok (mkHeston s v kappa theta sigma rho (match r with Some x => x | None => 0 end)).

(** The range constraints of the specification's data model. *)
Definition valid (h : Heston) : Prop :=
  0 < s h /\ 0 <= v h /\ 0 < kappa h /\ 0 < theta h /\ 0 < sigma h /\
  -1 < rho h < 1.

(** ** Characteristic function and Heston's formula *)

(** [_heston_cf(s, v, kappa, theta, sigma, rho, u, t)], compiled by
    Numba; [z**2] is [z * z]. *)
Definition _heston_cf (s v kappa theta sigma rho : R) (u : C) (t : R) : result C :=
  let a := (RtoC (rho * sigma) * u * Ci - RtoC kappa)%C in
  let d := Csqrt (a * a + RtoC (sigma ^ 2) * (u * Ci + u * u))%C in
  g <- Cdiv (a + d)%C (a - d)%C ;;
  kt <- pydiv (kappa * theta) (sigma ^ 2) ;;
  q <- Cdiv (RtoC 1 - g * Cexp (- d * RtoC t))%C (RtoC 1 - g)%C ;;
  let b := (RtoC kappa - RtoC (rho * sigma) * u * Ci - d)%C in
  let C_ := (RtoC kt * (RtoC t * b - RtoC 2 * Clog q))%C in
  d1 <- Cdiv b (RtoC (sigma ^ 2)) ;;
  d2 <- Cdiv (RtoC 1 - Cexp (- d * RtoC t))%C (RtoC 1 - g * Cexp (- d * RtoC t))%C ;;
  let D := (d1 * d2)%C in
  Ok (Cexp (C_ + D * RtoC v + u * RtoC (ln s) * Ci)%C).

(** The body of [_heston_integrand(n, x)] with [x = (u, t, k, s, v, kappa,
    theta, sigma, rho)], as Numba compiles it. *)
Definition _heston_integrand_body (x : list R) : result R :=
  let u := nth 0%nat x 0 in
  let t := nth 1%nat x 0 in
  let k := nth 2%nat x 0 in
  let s := nth 3%nat x 0 in
  let v := nth 4%nat x 0 in
  let kappa := nth 5%nat x 0 in
  let theta := nth 6%nat x 0 in
  let sigma := nth 7%nat x 0 in
  let rho := nth 8%nat x 0 in
  w <- Cdiv (Cexp (- Ci * RtoC u * RtoC (ln k))%C) (Ci * RtoC u)%C ;;
  f1 <- _heston_cf s v kappa theta sigma rho (RtoC u - Ci)%C t ;;
  f2 <- _heston_cf s v kappa theta sigma rho (RtoC u) t ;;
  Ok (re (w * (f1 - RtoC k * f2))%C).

(** [_heston_integrand], the C callback that [numba.cfunc] builds from the
    body and that [LowLevelCallable(_heston_integrand.ctypes)] hands to the
    quadrature.  A callback cannot raise: an exception of the body is
    reported as unraisable and the callback returns [0.0]. *)
Definition _heston_integrand (x : list R) : R :=
  match _heston_integrand_body x with
  | Ok y => y
  | Raise _ => 0
  end.

(** What [scipy.integrate.quad] hands back: the estimate, the estimate of
    the absolute error and QUADPACK's status [ier] ([0] on convergence; a
    non-zero status of a non-converged integral is reported as an
    [IntegrationWarning], with the same two values returned). *)
Record quad_out : Type := mkQuad {
  quad_value : R;
  quad_abserr : R;
  quad_ier : nat
}.

Definition quad_converged (q : quad_out) : bool := Nat.eqb (quad_ier q) 0.

Definition row : Type := list R.
Definition grid : Type := list row.

(** [A[0] = x] on a fresh array with [paths] columns. *)
Definition full (paths : nat) (x : R) : row := repeat x paths.

(** The entry [A[i, j]]. *)
Definition at_ (A : grid) (i j : nat) : option R :=
  match nth_error A i with
  | Some a => nth_error a j
  | None => None
  end.

(** An elementwise expression over the columns [0 .. paths-1]. *)
Definition columns (paths : nat) (f : nat -> R) : row := map f (seq 0 paths).

(** What a simulator returns: [S], or [(S, V)] when [return_v] is set. *)
Definition returned (return_v : bool) (S V : grid) : grid * option grid :=
  (S, if return_v then Some V else None).

(** ** The QE step, entry by entry *)

Definition qe_m (theta C1 vi : R) : R := vi * C1 + theta * (1 - C1).
Definition qe_s_sq (C2 C3 vi : R) : R := vi * C2 + C3.
Definition qe_psi (theta C1 C2 C3 vi : R) : R :=
  qe_s_sq C2 C3 vi / (qe_m theta C1 vi) ^ 2.
Definition qe_b_sq (psi : R) : R :=
  if Rlt_dec psi 2
  then 2 / psi - 1 + sqrt (Rmax (4 / psi ^ 2 - 2 / psi) 0)
  else 0.
Definition qe_a (m psi : R) : R := m / (1 + qe_b_sq psi).
Definition qe_p (psi : R) : R :=
  if Rgt_dec psi 1 then (psi - 1) / (psi + 1) else 0.
Definition qe_beta (m psi : R) : R := (1 - qe_p psi) / m.

(** [V[i+1]] from [V[i]], the normal draw [Z[0, i]] and the uniform draw
    [U[i]]: the two nested [np.where]. *)
Definition qe_next_v (theta C1 C2 C3 vi z u : R) : R :=
  let m := qe_m theta C1 vi in
  let psi := qe_psi theta C1 C2 C3 vi in
  if Rlt_dec psi 1.5
  then qe_a m psi * (sqrt (qe_b_sq psi) + z) ^ 2
  else if Rlt_dec u (qe_p psi)
       then 0
       else ln ((1 - qe_p psi) / (1 - u)) / qe_beta m psi.

(** ** Binary64 results of the library *)

(** The finite binary64 numbers: [m * 2^e] with a significand below [2^53]
    and an exponent between [-1074] and [971]. *)
Definition binary64 (x : R) : Prop :=
  exists m e : Z,
    (Z.abs m < 2 ^ 53)%Z /\ (-1074 <= e <= 971)%Z /\ x = IZR m * powerRZ 2 e.

(** A library exponential whose relative error is at most [2^-52], which
    is the case when the result is off by at most one unit in the last
    place. *)
Definition exp_relative_error (f : R -> R) : Prop :=
  forall y, Rabs (f y - exp y) <= exp y * / 2 ^ 52.

(** *** Dyadic enclosures of the exponential

    Integers [a] stand for the reals [a / 2^100].  The exponential of
    [m / 2^50] is enclosed by sixteen squarings of the Taylor polynomial of
    degree four at [m / 2^66], rounded downwards and upwards. *)
Definition exp_term (x : R) (k : nat) : R := / INR (fact k) * x ^ k.

Definition pow2_100 : Z := Eval vm_compute in (2 ^ 100)%Z.
Definition pow2_66 : Z := Eval vm_compute in (2 ^ 66)%Z.
Definition pow2_50 : Z := Eval vm_compute in (2 ^ 50)%Z.
Definition pow2_34 : Z := Eval vm_compute in (2 ^ 34)%Z.
Definition den2 : Z := Eval vm_compute in (2 ^ 33)%Z.
Definition den3 : Z := Eval vm_compute in (6 * 2 ^ 98)%Z.
Definition den4 : Z := Eval vm_compute in (24 * 2 ^ 164)%Z.
Definition den5 : Z := Eval vm_compute in (60 * 2 ^ 230)%Z.

Definition taylor_down (m : Z) : Z :=
  (pow2_100 + m * pow2_34 + m * m / den2 + m * m * m / den3 + m * m * m * m / den4)%Z.
Definition taylor_up (m : Z) : Z :=
  (pow2_100 + m * pow2_34 + (m * m / den2 + 1) + (m * m * m / den3 + 1)
   + (m * m * m * m / den4 + 1) + (m * m * m * m * m / den5 + 1))%Z.
Definition square_down (a : Z) : Z := (a * a / pow2_100)%Z.
Definition square_up (a : Z) : Z := (a * a / pow2_100 + 1)%Z.
Definition exp_down (m : Z) : Z := Nat.iter 16 square_down (taylor_down m).
Definition exp_up (m : Z) : Z := Nat.iter 16 square_up (taylor_up m).

(** [log100_above / 2^50] is the binary64 number next above [ln 100]
    ([4.605170185988092]), and [two_ulps / 2^100] is twice the spacing
    [2^-46] of the binary64 numbers around [100]. *)
Definition log100_above : Z := 5184960683398422.
Definition two_ulps : Z := Eval vm_compute in (2 ^ 55)%Z.

(** The shape [(rows, cols)] of an array, and a row of positive entries. *)
Definition has_shape (A : grid) (rows cols : nat) : Prop :=
  length A = rows /\ Forall (fun a => length a = cols) A.
Definition row_positive (a : row) : Prop := Forall (fun x => 0 < x) a.

(** An argument of [call_price]: a Python float or a one-dimensional
    array. *)
Inductive arg : Type :=
| Scalar (x : R)
| Array (xs : list R).

(** The pairs [np.broadcast(t, k)] iterates over, for floats and
    one-dimensional arrays: two arrays go together when their lengths are
    equal or one of them has length one, and otherwise the broadcast
    raises. *)
Definition broadcast (t k : arg) : result (list (R * R)) :=
  match t, k with
  | Scalar x, Scalar y => Ok [(x, y)]
  | Scalar x, Array ys => Ok (map (fun y => (x, y)) ys)
  | Array xs, Scalar y => Ok (map (fun x => (x, y)) xs)
  | Array xs, Array ys =>
      if Nat.eqb (length xs) (length ys) then Ok (combine xs ys)
      else match xs, ys with
           | [x], _ => Ok (map (fun y => (x, y)) ys)
           | _, [y] => Ok (map (fun x => (x, y)) xs)
           | _, _ => Raise ValueError
           end
  end.

(** A row of non-negative entries. *)
Definition row_nonneg (a : row) : Prop := Forall (fun x => 0 <= x) a.

(** ** Environments *)

(** Module [cmath] of CPython defines no attribute [abs] (the modulus of a
    complex number is the builtin [abs]): looking [cmath.abs] up raises
    [AttributeError]. *)
Definition cmath_abs_cpython : result (C -> R) := Raise AttributeError.

(** The parameters of the specification's concrete scenario, and a model
    at which the QE dispersion ratio of the first step is exactly [1.5]. *)
Definition reference_model : Heston := mkHeston 100 0.04 2 0.04 0.3 (-0.7) 0.
Definition threshold_model : Heston := mkHeston 1 0 1 3 3 0 0.
Definition rest_model : Heston := mkHeston 100 0 2 0.04 0.3 (-0.7) 0.

(** Fixed outcomes of the collaborators. *)
Definition zero_norm2 : nat -> nat -> nat -> R := fun _ _ _ => 0.
Definition zero_draws : nat -> nat -> R := fun _ _ => 0.
Definition zero_ncx2 : R -> R -> nat -> nat -> R := fun _ _ _ _ => 0.
Definition quad_not_converged : (list R -> R) -> list R -> quad_out :=
  fun _ _ => mkQuad 1 1000 1.
Definition iv_real_one : R -> R -> R := fun _ _ => 1.
Definition iv_complex_one : R -> C -> C := fun _ _ => RtoC 1.
Definition derivative_zero : (R -> result C) -> R -> R -> nat -> result C :=
  fun _ _ _ _ => Ok (RtoC 0).
Definition brentq_left : (R -> result R) -> R -> R -> result R :=
  fun _ a _ => Ok a.

Section Model.

(** *** Collaborators *)

(** [intg.quad(f, 0, math.inf, args=...)]. *)
Variable quad : (list R -> R) -> list R -> quad_out.

(** [st.norm.rvs(size=(2, steps, paths))], [st.norm.rvs(size=(steps,
    paths))], [st.uniform.rvs(size=(steps, paths))] and
    [st.ncx2(df, nc).rvs] for step [i] and path [j]. *)
Variable norm2 : nat -> nat -> nat -> R.
Variable norm1 : nat -> nat -> R.
Variable uniform : nat -> nat -> R.
Variable ncx2 : R -> R -> nat -> nat -> R.

(** [math.log] and [np.exp] as [simulate_euler] calls them. *)
Variable libm_log : R -> R.
Variable libm_exp : R -> R.

(** [spec.iv] at a real and at a complex argument,
    [spmisc.derivative(f, x0, dx=, n=)] and [opt.brentq(f, a=, b=)]. *)
Variable iv_real : R -> R -> R.
Variable iv_complex : R -> C -> C.
Variable derivative : (R -> result C) -> R -> R -> nat -> result C.
Variable brentq : (R -> result R) -> R -> R -> result R.

(** The attribute [abs] of module [cmath], as [_bk_prob] looks it up. *)
Variable cmath_abs : result (C -> R).

(** *** Pricing *)

(** [Heston._call_price_scalar(self, t, k)]: element [[0]] of the
    quadrature's result enters the formula. *)
Definition _call_price_scalar (self : Heston) (t k : R) : result R :=
  let q := quad _heston_integrand
                [t; k; s self; v self; kappa self; theta self; sigma self;
                 rho self] in
  Ok (0.5 * (s self - exp (- r self * t) * k)
      + 1 / PI * exp (- r self * t) * quad_value q).

(** *** Euler's scheme *)

(** [math.log(self.s)]. *)
Definition math_log (x : R) : result R :=
  if Rle_dec x 0 then Raise ValueError else Ok (libm_log x).

(** The body of [for i in range(steps)], from step [i] on; the rows
    [V[i+1 ..]] and [X[i+1 ..]]. *)
Fixpoint euler_loop (self : Heston) (dt : R) (paths n i : nat) (Vi Xi : row)
  : result (list row * list row) :=
  match n with
  | O => Ok ([], [])
  | S n' =>
      sdt <- math_sqrt dt ;;
      let Vplus := fun j => Rmax (nth j Vi 0) 0 in
      let Vn := columns paths (fun j =>
        nth j Vi 0 + kappa self * (theta self - Vplus j) * dt
        + sigma self * sqrt (Vplus j) * norm2 0%nat i j * sdt) in
      srho <- math_sqrt (1 - rho self ^ 2) ;;
      sdt' <- math_sqrt dt ;;
      let Xn := columns paths (fun j =>
        nth j Xi 0 + (r self - 0.5 * Vplus j) * dt
        + sqrt (Vplus j)
          * (rho self * norm2 0%nat i j + srho * norm2 1%nat i j) * sdt') in
      rest <- euler_loop self dt paths n' (S i) Vn Xn ;;
      Ok (Vn :: fst rest, Xn :: snd rest)
  end.

(** [Heston.simulate_euler(self, t, steps, paths, return_v)]. *)
Definition simulate_euler (self : Heston) (t : R) (steps paths : nat)
           (return_v : bool) : result (grid * option grid) :=
  dt <- pydiv t (INR steps) ;;
  let V0 := full paths (v self) in
  x0 <- math_log (s self) ;;
  let X0 := full paths x0 in
  rest <- euler_loop self dt paths steps 0 V0 X0 ;;
  let V := V0 :: fst rest in
  let X := X0 :: snd rest in
  Ok (returned return_v (map (map libm_exp) X) V).

(** *** Andersen's QE scheme *)

Fixpoint qe_loop (self : Heston) (dt K0 K1 K2 K3 C1 C2 C3 : R)
         (paths n i : nat) (Vi Si : row) : list row * list row :=
  match n with
  | O => ([], [])
  | S n' =>
      let Vn := columns paths (fun j =>
        qe_next_v (theta self) C1 C2 C3 (nth j Vi 0)
                  (norm2 0%nat i j) (uniform i j)) in
      let Sn := columns paths (fun j =>
        nth j Si 0
        * exp (r self * dt + K0 + K1 * nth j Vi 0 + K2 * nth j Vn 0
               + sqrt (K3 * (nth j Vi 0 + nth j Vn 0)) * norm2 1%nat i j)) in
      let rest := qe_loop self dt K0 K1 K2 K3 C1 C2 C3 paths n' (S i) Vn Sn in
      (Vn :: fst rest, Sn :: snd rest)
  end.

(** [Heston.simulate_qe(self, t, steps, paths, return_v)]. *)
Definition simulate_qe (self : Heston) (t : R) (steps paths : nat)
           (return_v : bool) : result (grid * option grid) :=
  dt <- pydiv t (INR steps) ;;
  K0 <- pydiv (- rho self * kappa self * theta self * dt) (sigma self) ;;
  k1 <- pydiv (kappa self * rho self) (sigma self) ;;
  k1' <- pydiv (rho self) (sigma self) ;;
  let K1 := 0.5 * (k1 - 0.5) * dt - k1' in
  k2 <- pydiv (kappa self * rho self) (sigma self) ;;
  k2' <- pydiv (rho self) (sigma self) ;;
  let K2 := 0.5 * (k2 - 0.5) * dt + k2' in
  let K3 := 0.5 * (1 - rho self ^ 2) * dt in
  let C1 := exp (- kappa self * dt) in
  C2 <- pydiv (sigma self ^ 2 * C1 * (1 - C1)) (kappa self) ;;
  C3 <- pydiv (0.5 * theta self * sigma self ^ 2 * (1 - C1) ^ 2) (kappa self) ;;
  let V0 := full paths (v self) in
  let S0 := full paths (s self) in
  let rest := qe_loop self dt K0 K1 K2 K3 C1 C2 C3 paths steps 0 V0 S0 in
  Ok (returned return_v (S0 :: snd rest) (V0 :: fst rest)).

(** *** Broadie and Kaya's exact scheme *)

(** [Heston._bk_cf(self, u, vprev, vnext, dt)]. *)
Definition _bk_cf (self : Heston) (u vprev vnext dt : R) : result C :=
  let g := Csqrt (RtoC (kappa self ^ 2)
                  - RtoC (2 * sigma self ^ 2 * u) * Ci)%C in
  df <- pydiv (4 * theta self * kappa self) (sigma self ^ 2) ;;
  let c1 := exp (- kappa self * dt) in
  let c2 := Cexp (- g * RtoC dt)%C in
  q <- Cdiv c2 (RtoC c1) ;;
  f1 <- Cdiv (g * Csqrt q * RtoC (1 - c1))%C
             (RtoC (kappa self) * (RtoC 1 - c2))%C ;;
  e1 <- pydiv (kappa self * (1 + c1)) (1 - c1) ;;
  e2 <- Cdiv (g * (RtoC 1 + c2))%C (RtoC 1 - c2)%C ;;
  let f2 := Cexp (RtoC ((vprev + vnext) / sigma self ^ 2)
                  * (RtoC e1 - e2))%C in
  a1 <- Cdiv (Csqrt (RtoC (vprev * vnext) * c2) * RtoC 4 * g)%C
             (RtoC (sigma self ^ 2) * (RtoC 1 - c2))%C ;;
  let b1 := iv_complex (0.5 * df - 1) a1 in
  sq <- math_sqrt (vprev * vnext * c1) ;;
  a2 <- pydiv (sq * 4 * kappa self) (sigma self ^ 2 * (1 - c1)) ;;
  let b2 := iv_real (0.5 * df - 1) a2 in
  Ok (Cquot (f1 * f2 * b1)%C (RtoC b2)).

(** The [while] loop of [_bk_prob] from the state [(j, prob)]; [fuel]
    bounds the number of tests of the loop condition.  The final state is
    returned. *)
Fixpoint bk_series (self : Heston) (x vprev vnext dt truncation_error h : R)
         (fuel j : nat) (prob : R) : result (nat * R) :=
  match fuel with
  | O => Ok (j, prob)
  | S fuel' =>
      if (j <? 1000)%nat then
        modulus <- cmath_abs ;;
        c <- _bk_cf self (h * INR j) vprev vnext dt ;;
        if Rge_dec (modulus c / INR j) (PI * truncation_error / 2) then
          c' <- _bk_cf self (h * INR j) vprev vnext dt ;;
          bk_series self x vprev vnext dt truncation_error h fuel' (S j)
                    (prob + 2 / PI * sin (h * INR j * x) / INR j * re c')
        else Ok (j, prob)
      else Ok (j, prob)
  end.

(** [Heston._bk_prob(self, x, vprev, vnext, dt, truncation_error,
    small_tail_stddev)]. *)
Definition _bk_prob (self : Heston)
           (x vprev vnext dt truncation_error small_tail_stddev : R) : result R :=
  if Rle_dec x 0 then Ok 0 else
    d1 <- derivative (fun u => _bk_cf self u vprev vnext dt) 0 0.001 1 ;;
    let m := re (Cquot d1 Ci) in
    d2 <- derivative (fun u => _bk_cf self u vprev vnext dt) 0 0.001 2 ;;
    s_ <- math_sqrt (Rmax 0 (- re d2)) ;;
    let h := PI / (m + s_ * small_tail_stddev) in
    let prob := h * x / PI in
    st <- bk_series self x vprev vnext dt truncation_error h 1000 1 prob ;;
    Ok (Rmax (Rmin (snd st) 1) 0).

(** [U = st.uniform.rvs(size=(steps, paths))*0.9999]. *)
Definition U_exact (i j : nat) : R := uniform i j * 0.9999.

(** [max_int_v]. *)
Definition max_int_v (vprev vnext dt : R) : R := (vprev + vnext) * dt * 10.

(** The body of [for j in range(paths)]: the value stored in
    [int_v[j]], inverting the conditional distribution at [u]. *)
Definition bk_int_v (self : Heston)
           (vprev vnext dt truncation_error small_tail_stddev u : R) : result R :=
  let x_max := max_int_v vprev vnext dt in
  p <- _bk_prob self x_max vprev vnext dt truncation_error small_tail_stddev ;;
  if Rle_dec p u then Ok x_max
  else brentq (fun x =>
                 p' <- _bk_prob self x vprev vnext dt truncation_error
                                small_tail_stddev ;;
                 Ok (p' - u))
              0 x_max.

(** The next variance row of the exact scheme. *)
Definition exact_next_v (df nc scale : R) (paths i : nat) (Vi : row) : row :=
  columns paths (fun j => scale * ncx2 df (nc * nth j Vi 0) i j).

(** The body of [for i in range(steps)], from step [i] on; the rows
    [S[i+1 ..]] and [V[i+1 ..]]. *)
Fixpoint exact_loop (self : Heston) (dt df nc truncation_error small_tail_stddev : R)
         (paths n i : nat) (Si Vi : row) : result (list row * list row) :=
  match n with
  | O => Ok ([], [])
  | S n' =>
      scale <- pydiv (sigma self ^ 2 * (1 - exp (- kappa self * dt)))
                     (4 * kappa self) ;;
      let Vn := exact_next_v df nc scale paths i Vi in
      int_v <- mapM (fun j =>
                       bk_int_v self (nth j Vi 0) (nth j Vn 0) dt
                                truncation_error small_tail_stddev
                                (U_exact i j))
                    (seq 0 paths) ;;
      let int_w1 := columns paths (fun j =>
        (nth j Vn 0 - nth j Vi 0 - kappa self * theta self * dt
         + kappa self * nth j int_v 0) / sigma self) in
      sq <- math_sqrt_array int_v ;;
      let int_w2 := columns paths (fun j => norm1 i j * sq) in
      srho <- math_sqrt (1 - rho self ^ 2) ;;
      e <- math_exp_array (columns paths (fun j =>
             r self * dt - 0.5 * nth j int_v 0 + rho self * nth j int_w1 0
             + srho * nth j int_w2 0)) ;;
      let Sn := columns paths (fun j => nth j Si 0 * e) in
      rest <- exact_loop self dt df nc truncation_error small_tail_stddev
                         paths n' (S i) Sn Vn ;;
      Ok (Sn :: fst rest, Vn :: snd rest)
  end.

(** [Heston.simulate_exact(self, t, steps, paths, truncation_error,
    small_tail_stddev, return_v)]. *)
Definition simulate_exact (self : Heston) (t : R) (steps paths : nat)
           (truncation_error small_tail_stddev : R) (return_v : bool)
  : result (grid * option grid) :=
  dt <- pydiv t (INR steps) ;;
  df <- pydiv (4 * theta self * kappa self) (sigma self ^ 2) ;;
  nc <- pydiv (4 * kappa self * exp (- kappa self * dt))
              (sigma self ^ 2 * (1 - exp (- kappa self * dt))) ;;
  let S0 := full paths (s self) in
  let V0 := full paths (v self) in
  rest <- exact_loop self dt df nc truncation_error small_tail_stddev
                     paths steps 0 S0 V0 ;;
  Ok (returned return_v (S0 :: fst rest) (V0 :: snd rest)).


(** *** Vectorised pricing *)

(** [Heston.call_price(self, t, k)] for floats and one-dimensional arrays:
    two floats ([b.nd == 0]) give a float, anything else the array of the
    scalar prices over the broadcast pairs. *)
Definition call_price (self : Heston) (t k : arg) : result arg :=
  b <- broadcast t k ;;
  match t, k with
  | Scalar x, Scalar y => p <- _call_price_scalar self x y ;; Ok (Scalar p)
  | _, _ =>
      prices <- mapM (fun tk => _call_price_scalar self (fst tk) (snd tk)) b ;;
      Ok (Array prices)
  end.


(** ** Properties *)

(** *** Results and scalar operations *)

Lemma pydiv_ok (x y : R) : y <> 0 -> pydiv x y = Ok (x / y).
Proof.
  intros Hy. unfold pydiv. destruct (Req_dec_T y 0); [contradiction | reflexivity].
Qed.

Lemma pydiv_zero (x : R) : pydiv x 0 = Raise ZeroDivisionError.
Proof.
  unfold pydiv. destruct (Req_dec_T 0 0) as [_ | H]; [reflexivity | now elim H].
Qed.

Lemma math_sqrt_ok (x : R) : 0 <= x -> math_sqrt x = Ok (sqrt x).
Proof.
  intros Hx. unfold math_sqrt. destruct (Rlt_dec x 0); [lra | reflexivity].
Qed.

Lemma Ceq (a b : C) : re a = re b -> im a = im b -> a = b.
Proof. destruct a, b; simpl; intros -> ->; reflexivity. Qed.

Lemma Cdiv_ok (a b : C) : re b <> 0 \/ im b <> 0 -> Cdiv a b = Ok (Cquot a b).
Proof.
  intros Hb. unfold Cdiv. destruct (C_is_zero b) as [[Hr Hi] | _]; [| reflexivity].
  destruct Hb; contradiction.
Qed.

Lemma Cquot_zero_l (b : C) : Cquot (mkC 0 0) b = mkC 0 0.
Proof. unfold Cquot; simpl. apply Ceq; simpl; unfold Rdiv; ring. Qed.

Lemma Cquot_one : Cquot (mkC 1 0) (mkC 1 0) = mkC 1 0.
Proof. unfold Cquot, Cnorm2; simpl. apply Ceq; simpl; field. Qed.

Lemma Cmul_zero_l (b : C) : (mkC 0 0 * b)%C = mkC 0 0.
Proof. apply Ceq; simpl; ring. Qed.

Lemma Cmul_zero_r (b : C) : (b * mkC 0 0)%C = mkC 0 0.
Proof. apply Ceq; simpl; ring. Qed.

Lemma Csqrt_square_real (k : R) : 0 <= k -> Csqrt (mkC (k * k) 0) = mkC k 0.
Proof.
  intros Hk. unfold Csqrt, Cmod, Cnorm2; simpl.
  replace (k * k * (k * k) + 0 * 0) with ((k * k) * (k * k)) by ring.
  rewrite sqrt_square by nra.
  replace ((k * k + k * k) / 2) with (k * k) by field.
  replace ((k * k - k * k) / 2) with 0 by field.
  rewrite sqrt_square by assumption. rewrite sqrt_0.
  apply Ceq; simpl; [reflexivity | ring].
Qed.

Lemma Clog_one : Clog (mkC 1 0) = mkC 0 0.
Proof.
  unfold Clog, Cmod, Cnorm2, atan2; simpl.
  replace (1 * 1 + 0 * 0) with 1 by ring. rewrite sqrt_1, ln_1.
  destruct (Rlt_dec 0 1) as [_ | H]; [| lra].
  replace (0 / 1) with 0 by field. rewrite atan_0. reflexivity.
Qed.

Lemma Cexp_zero : Cexp (mkC 0 0) = mkC 1 0.
Proof.
  unfold Cexp; simpl. rewrite exp_0, cos_0, sin_0. apply Ceq; simpl; ring.
Qed.

(** *** The characteristic function at frequency zero *)

(** C8.  For valid parameters and every time [t >= 0] the characteristic
    function of the log-price at frequency [u = 0] is exactly [1]. *)
Theorem heston_cf_at_zero (h : Heston) (t : R) :
  valid h -> 0 <= t ->
  _heston_cf (s h) (v h) (kappa h) (theta h) (sigma h) (rho h) (RtoC 0) t
  = Ok (RtoC 1).
Proof.
  intros (Hs & Hv & Hk & Hth & Hsg & Hrho) Ht.
  destruct h as [s0 v0 k th sg rh r0]; simpl in *.
  unfold _heston_cf.
  assert (Ha : (RtoC (rh * sg) * RtoC 0 * Ci - RtoC k)%C = mkC (- k) 0)
    by (apply Ceq; simpl; ring).
  rewrite !Ha.
  assert (Harg : (mkC (- k) 0 * mkC (- k) 0
                  + RtoC (sg ^ 2) * (RtoC 0 * Ci + RtoC 0 * RtoC 0))%C
                 = mkC (k * k) 0)
    by (apply Ceq; simpl; ring).
  rewrite !Harg, !Csqrt_square_real by lra.
  assert (Hnum : (mkC (- k) 0 + mkC k 0)%C = mkC 0 0) by (apply Ceq; simpl; ring).
  rewrite Hnum.
  rewrite Cdiv_ok by (left; simpl; lra).
  rewrite Cquot_zero_l. cbn [bind].
  rewrite pydiv_ok by (apply pow_nonzero; lra). cbn [bind].
  rewrite !Cmul_zero_l.
  assert (H1 : (RtoC 1 - mkC 0 0)%C = mkC 1 0) by (apply Ceq; simpl; ring).
  rewrite !H1.
  rewrite Cdiv_ok by (left; simpl; lra).
  rewrite Cquot_one. cbn [bind]. rewrite Clog_one.
  assert (Hb : (RtoC k - RtoC (rh * sg) * RtoC 0 * Ci - mkC k 0)%C = mkC 0 0)
    by (apply Ceq; simpl; ring).
  rewrite !Hb.
  rewrite Cdiv_ok by (left; simpl; nra).
  rewrite Cquot_zero_l. cbn [bind].
  rewrite Cdiv_ok by (left; simpl; lra). cbn [bind].
  rewrite !Cmul_zero_l, !Cmul_zero_r.
  f_equal. change (RtoC 1) with (mkC 1 0). rewrite <- Cexp_zero. f_equal.
  apply Ceq; simpl; ring.
Qed.

(** *** Grids *)

Lemma columns_nth_error (paths : nat) (f : nat -> R) (j : nat) :
  (j < paths)%nat -> nth_error (columns paths f) j = Some (f j).
Proof.
  intros Hj. unfold columns. rewrite nth_error_map, nth_error_seq.
  apply Nat.ltb_lt in Hj. rewrite Hj. reflexivity.
Qed.

Lemma columns_nth (paths : nat) (f : nat -> R) (j : nat) :
  (j < paths)%nat -> nth j (columns paths f) 0 = f j.
Proof.
  intros Hj. apply nth_error_nth. apply columns_nth_error; assumption.
Qed.

Lemma at_first_row (a : row) (rest : list row) (j : nat) :
  at_ (a :: rest) 0 j = nth_error a j.
Proof. reflexivity. Qed.

Lemma at_full (paths : nat) (x : R) (rest : list row) (j : nat) :
  (j < paths)%nat -> at_ (full paths x :: rest) 0 j = Some x.
Proof. intros Hj. rewrite at_first_row. apply nth_error_repeat; assumption. Qed.

Lemma INR_steps_nonzero (steps : nat) : (1 <= steps)%nat -> INR steps <> 0.
Proof. intros H. apply not_0_INR. lia. Qed.

(** *** Division by the number of steps *)

Lemma simulate_euler_no_steps (self : Heston) (t : R) (paths : nat) (rv : bool) :
  simulate_euler self t 0 paths rv = Raise ZeroDivisionError.
Proof. unfold simulate_euler. simpl INR. rewrite pydiv_zero. reflexivity. Qed.

Lemma simulate_qe_no_steps (self : Heston) (t : R) (paths : nat) (rv : bool) :
  simulate_qe self t 0 paths rv = Raise ZeroDivisionError.
Proof. unfold simulate_qe. simpl INR. rewrite pydiv_zero. reflexivity. Qed.

Lemma simulate_exact_no_steps (self : Heston) (t : R) (paths : nat)
      (te sts : R) (rv : bool) :
  simulate_exact self t 0 paths te sts rv = Raise ZeroDivisionError.
Proof. unfold simulate_exact. simpl INR. rewrite pydiv_zero. reflexivity. Qed.

(** *** The simulators return *)

Lemma euler_loop_returns (self : Heston) (dt : R) (paths n : nat) :
  0 <= dt -> 0 <= 1 - rho self ^ 2 ->
  forall (i : nat) (Vi Xi : row),
  exists rest, euler_loop self dt paths n i Vi Xi = Ok rest.
Proof.
  intros Hdt Hrho. induction n as [| n IH]; intros i Vi Xi; simpl.
  - eexists; reflexivity.
  - rewrite !math_sqrt_ok by assumption. cbn [bind].
    match goal with
    | |- context [euler_loop self dt paths n (S i) ?a ?b] =>
        destruct (IH (S i) a b) as [rest ->]
    end.
    cbn [bind]. eexists; reflexivity.
Qed.

Lemma simulate_euler_returns (self : Heston) (t : R) (steps paths : nat) (rv : bool) :
  valid self -> 0 < t -> (1 <= steps)%nat ->
  exists Xs Vs,
    simulate_euler self t steps paths rv
    = Ok (returned rv
            (map (map libm_exp) (full paths (libm_log (s self)) :: Xs))
            (full paths (v self) :: Vs)).
Proof.
  intros (Hs & Hv & Hk & Hth & Hsg & Hrho) Ht Hsteps.
  unfold simulate_euler.
  rewrite pydiv_ok by (apply INR_steps_nonzero; assumption). cbn [bind].
  unfold math_log. destruct (Rle_dec (s self) 0) as [H | _]; [lra |]. cbn [bind].
  assert (Hdt : 0 <= t / INR steps).
  { apply Rlt_le, Rdiv_lt_0_compat; [assumption | apply lt_0_INR; lia]. }
  destruct (euler_loop_returns self (t / INR steps) paths steps Hdt
              ltac:(nra) 0%nat (full paths (v self))
              (full paths (libm_log (s self)))) as [rest ->].
  cbn [bind]. exists (snd rest), (fst rest). reflexivity.
Qed.

Lemma simulate_qe_returns (self : Heston) (t : R) (steps paths : nat) (rv : bool) :
  valid self -> (1 <= steps)%nat ->
  exists Ss Vs,
    simulate_qe self t steps paths rv
    = Ok (returned rv (full paths (s self) :: Ss) (full paths (v self) :: Vs)).
Proof.
  intros (Hs & Hv & Hk & Hth & Hsg & Hrho) Hsteps.
  unfold simulate_qe.
  rewrite pydiv_ok by (apply INR_steps_nonzero; assumption). cbn [bind].
  rewrite !(pydiv_ok _ (sigma self)) by lra. cbn [bind].
  rewrite !(pydiv_ok _ (kappa self)) by lra. cbn [bind].
  eexists; eexists; reflexivity.
Qed.

Lemma simulate_exact_first_rows (self : Heston) (t : R) (steps paths : nat)
      (te sts : R) (rv : bool) (out : grid * option grid) :
  simulate_exact self t steps paths te sts rv = Ok out ->
  exists Ss Vs,
    out = returned rv (full paths (s self) :: Ss) (full paths (v self) :: Vs).
Proof.
  unfold simulate_exact. intros H.
  destruct (pydiv t (INR steps)) as [dt |]; [cbn [bind] in H | discriminate].
  destruct (pydiv (4 * theta self * kappa self) (sigma self ^ 2)) as [df |];
    [cbn [bind] in H | discriminate].
  destruct (pydiv _ _) as [nc |]; [cbn [bind] in H | discriminate].
  destruct (exact_loop _ _ _ _ _ _ _ _ _ _ _) as [rest |];
    [cbn [bind] in H | discriminate].
  injection H as <-. exists (fst rest), (snd rest). reflexivity.
Qed.

(** *** The variance stays non-negative *)

Lemma row_nonneg_nth (a : row) (j : nat) : row_nonneg a -> 0 <= nth j a 0.
Proof.
  intros Ha. destruct (nth_error a j) as [x |] eqn:E.
  - rewrite (nth_error_nth a j 0 E).
    unfold row_nonneg in Ha. rewrite Forall_forall in Ha.
    apply Ha. eapply nth_error_In; eassumption.
  - rewrite (nth_error_nth_None a j 0 E). lra.
Qed.

Lemma row_nonneg_full (paths : nat) (x : R) : 0 <= x -> row_nonneg (full paths x).
Proof.
  intros Hx. unfold row_nonneg, full. apply Forall_forall.
  intros y Hy. apply repeat_spec in Hy. subst y. assumption.
Qed.

Lemma row_nonneg_columns (paths : nat) (f : nat -> R) :
  (forall j, 0 <= f j) -> row_nonneg (columns paths f).
Proof.
  intros Hf. unfold row_nonneg, columns. apply Forall_forall.
  intros y Hy. apply in_map_iff in Hy. destruct Hy as (j & <- & _). apply Hf.
Qed.

Lemma grid_nonneg_at (A : grid) (i j : nat) (x : R) :
  Forall row_nonneg A -> at_ A i j = Some x -> 0 <= x.
Proof.
  intros HA. unfold at_. destruct (nth_error A i) as [a |] eqn:E; [| discriminate].
  intros Hx. rewrite Forall_forall in HA.
  assert (Ha : row_nonneg a) by (apply HA; eapply nth_error_In; eassumption).
  unfold row_nonneg in Ha. rewrite Forall_forall in Ha.
  apply Ha. eapply nth_error_In; eassumption.
Qed.

Lemma ln_nonneg (x : R) : 1 <= x -> 0 <= ln x.
Proof.
  intros [Hx | <-].
  - rewrite <- ln_1. left. apply ln_increasing; lra.
  - rewrite ln_1. lra.
Qed.

Lemma exp_neg_lt_1 (x : R) : 0 < x -> 0 < exp (- x) < 1.
Proof.
  intros Hx. split; [apply exp_pos |].
  rewrite <- exp_0. apply exp_increasing. lra.
Qed.

Lemma qe_m_pos (theta C1 vi : R) :
  0 < theta -> 0 < C1 < 1 -> 0 <= vi -> 0 < qe_m theta C1 vi.
Proof. intros Hth [H0 H1] Hv. unfold qe_m. nra. Qed.

Lemma qe_psi_pos (theta C1 C2 C3 vi : R) :
  0 < theta -> 0 < C1 < 1 -> 0 <= C2 -> 0 < C3 -> 0 <= vi ->
  0 < qe_psi theta C1 C2 C3 vi.
Proof.
  intros Hth HC1 HC2 HC3 Hv. unfold qe_psi, qe_s_sq.
  pose proof (qe_m_pos theta C1 vi Hth HC1 Hv) as Hm.
  apply Rdiv_lt_0_compat; nra.
Qed.

Lemma qe_b_sq_pos (psi : R) : 0 < psi < 2 -> 0 < qe_b_sq psi.
Proof.
  intros [H0 H2]. unfold qe_b_sq. destruct (Rlt_dec psi 2) as [_ | H]; [| lra].
  assert (Hinv : 0 < / psi) by (apply Rinv_0_lt_compat; assumption).
  assert (Hone : psi * / psi = 1) by (field; lra).
  assert (Hdiv : 1 < 2 / psi) by (unfold Rdiv; nra).
  pose proof (sqrt_pos (Rmax (4 / psi ^ 2 - 2 / psi) 0)). lra.
Qed.

Lemma qe_p_range (psi : R) : 1 < psi -> 0 < qe_p psi < 1.
Proof.
  intros H1. unfold qe_p. destruct (Rgt_dec psi 1) as [_ | H]; [| lra].
  split.
  - apply Rdiv_lt_0_compat; lra.
  - apply (Rmult_lt_reg_r (psi + 1)); [lra |].
    unfold Rdiv. rewrite Rmult_assoc, Rinv_l by lra. lra.
Qed.

Lemma qe_next_v_nonneg (theta C1 C2 C3 vi z u : R) :
  0 < theta -> 0 < C1 < 1 -> 0 <= C2 -> 0 < C3 -> 0 <= vi -> 0 <= u < 1 ->
  0 <= qe_next_v theta C1 C2 C3 vi z u.
Proof.
  intros Hth HC1 HC2 HC3 Hv Hu.
  pose proof (qe_m_pos theta C1 vi Hth HC1 Hv) as Hm.
  pose proof (qe_psi_pos theta C1 C2 C3 vi Hth HC1 HC2 HC3 Hv) as Hpsi.
  unfold qe_next_v.
  destruct (Rlt_dec (qe_psi theta C1 C2 C3 vi) 1.5) as [Hlt | Hge].
  - apply Rmult_le_pos; [| apply pow2_ge_0].
    unfold qe_a.
    pose proof (qe_b_sq_pos (qe_psi theta C1 C2 C3 vi) ltac:(lra)) as Hb.
    left. apply Rdiv_lt_0_compat; lra.
  - destruct (Rlt_dec u (qe_p (qe_psi theta C1 C2 C3 vi))) as [_ | Hup]; [lra |].
    pose proof (qe_p_range (qe_psi theta C1 C2 C3 vi) ltac:(lra)) as Hp.
    unfold qe_beta.
    assert (Hratio : 1 <= (1 - qe_p (qe_psi theta C1 C2 C3 vi)) / (1 - u)).
    { apply (Rmult_le_reg_r (1 - u)); [lra |].
      unfold Rdiv. rewrite Rmult_assoc, Rinv_l by lra. lra. }
    pose proof (ln_nonneg _ Hratio) as Hln.
    assert (Hbeta : 0 < (1 - qe_p (qe_psi theta C1 C2 C3 vi)) / qe_m theta C1 vi)
      by (apply Rdiv_lt_0_compat; lra).
    unfold Rdiv at 1. apply Rmult_le_pos; [assumption |].
    left. apply Rinv_0_lt_compat. assumption.
Qed.

Lemma qe_loop_nonneg (self : Heston) (dt K0 K1 K2 K3 C1 C2 C3 : R) (paths n : nat) :
  0 < theta self -> 0 < C1 < 1 -> 0 <= C2 -> 0 < C3 ->
  (forall i j, 0 <= uniform i j < 1) ->
  forall (i : nat) (Vi Si : row),
    row_nonneg Vi ->
    Forall row_nonneg
           (fst (qe_loop self dt K0 K1 K2 K3 C1 C2 C3 paths n i Vi Si)).
Proof.
  intros Hth HC1 HC2 HC3 HU. induction n as [| n IH]; intros i Vi Si HVi; simpl.
  - constructor.
  - assert (Hn : row_nonneg
                   (columns paths (fun j =>
                      qe_next_v (theta self) C1 C2 C3 (nth j Vi 0)
                                (norm2 0%nat i j) (uniform i j)))).
    { apply row_nonneg_columns. intros j.
      apply qe_next_v_nonneg; auto using row_nonneg_nth. }
    constructor; [exact Hn |]. apply IH. exact Hn.
Qed.

Lemma qe_constants (self : Heston) (dt : R) :
  valid self -> 0 < dt ->
  let C1 := exp (- kappa self * dt) in
  0 < C1 < 1 /\
  0 <= sigma self ^ 2 * C1 * (1 - C1) / kappa self /\
  0 < 0.5 * theta self * sigma self ^ 2 * (1 - C1) ^ 2 / kappa self.
Proof.
  intros (Hs & Hv & Hk & Hth & Hsg & Hrho) Hdt C1.
  assert (HC1 : 0 < C1 < 1).
  { unfold C1. replace (- kappa self * dt) with (- (kappa self * dt)) by ring.
    apply exp_neg_lt_1. nra. }
  split; [exact HC1 |]. split.
  - apply Rlt_le, Rdiv_lt_0_compat; [| assumption].
    apply Rmult_lt_0_compat; [| lra]. apply Rmult_lt_0_compat; nra.
  - apply Rdiv_lt_0_compat; [| assumption].
    apply Rmult_lt_0_compat; [| nra]. apply Rmult_lt_0_compat; nra.
Qed.

Lemma simulate_qe_nonneg (self : Heston) (t : R) (steps paths : nat) (rv : bool) :
  valid self -> 0 < t -> (1 <= steps)%nat ->
  (forall i j, 0 <= uniform i j < 1) ->
  exists Sg Vg,
    simulate_qe self t steps paths rv = Ok (returned rv Sg Vg) /\
    Forall row_nonneg Vg.
Proof.
  intros Hvalid Ht Hsteps HU.
  pose proof Hvalid as (Hs & Hv & Hk & Hth & Hsg & Hrho).
  unfold simulate_qe.
  rewrite pydiv_ok by (apply INR_steps_nonzero; assumption). cbn [bind].
  rewrite !(pydiv_ok _ (sigma self)) by lra. cbn [bind].
  rewrite !(pydiv_ok _ (kappa self)) by lra. cbn [bind].
  assert (Hdt : 0 < t / INR steps)
    by (apply Rdiv_lt_0_compat; [assumption | apply lt_0_INR; lia]).
  destruct (qe_constants self (t / INR steps) Hvalid Hdt) as (HC1 & HC2 & HC3).
  eexists; eexists; split; [reflexivity |].
  constructor.
  - apply row_nonneg_full; assumption.
  - apply qe_loop_nonneg; auto. apply row_nonneg_full; assumption.
Qed.

Lemma bind_ok_inv (A B : Type) (m : result A) (k : A -> result B) (b : B) :
  bind m k = Ok b -> exists a, m = Ok a /\ k a = Ok b.
Proof.
  destruct m as [a | e]; simpl; intros H; [| discriminate].
  exists a. split; [reflexivity | assumption].
Qed.

Ltac bind_inv H :=
  match type of H with
  | bind ?m _ = Ok _ =>
      let E := fresh "E" in
      let a := fresh "a" in
      apply bind_ok_inv in H; destruct H as (a & E & H);
      try rewrite E in *
  end.

Lemma exact_loop_nonneg (self : Heston) (dt df nc te sts : R) (paths n : nat) :
  0 < kappa self -> 0 < dt ->
  (forall a b i j, 0 <= ncx2 a b i j) ->
  forall (i : nat) (Si Vi : row) (rest : list row * list row),
    exact_loop self dt df nc te sts paths n i Si Vi = Ok rest ->
    Forall row_nonneg (snd rest).
Proof.
  intros Hk Hdt Hchi. induction n as [| n IH]; intros i Si Vi rest H; simpl in H.
  - injection H as <-. constructor.
  - rewrite pydiv_ok in H by lra. cbn [bind] in H.
    do 5 bind_inv H. injection H as <-. simpl.
    constructor.
    + apply row_nonneg_columns. intros j. apply Rmult_le_pos; [| apply Hchi].
      pose proof (exp_neg_lt_1 (kappa self * dt) ltac:(nra)) as Hexp.
      replace (- kappa self * dt) with (- (kappa self * dt)) by ring.
      pose proof (pow2_ge_0 (sigma self)) as Hsq.
      unfold Rdiv. apply Rmult_le_pos; [nra |].
      left. apply Rinv_0_lt_compat. lra.
    + eapply IH. eassumption.
Qed.

(** C3.  For valid parameters, a horizon [t > 0], at least one step,
    uniform draws in [[0, 1)] and non-negative noncentral chi-squared
    draws, and whatever the normal draws: the QE simulator returns a
    variance grid all of whose entries are non-negative, and every variance
    grid the exact simulator returns has only non-negative entries. *)
Theorem variance_grid_nonneg (self : Heston) (t : R) (steps paths : nat) (te sts : R) :
  valid self -> 0 < t -> (1 <= steps)%nat ->
  (forall i j, 0 <= uniform i j < 1) ->
  (forall a b i j, 0 <= ncx2 a b i j) ->
  (exists Sg Vg,
      simulate_qe self t steps paths true = Ok (Sg, Some Vg) /\
      forall i j x, at_ Vg i j = Some x -> 0 <= x) /\
  (forall Sg Vg,
      simulate_exact self t steps paths te sts true = Ok (Sg, Some Vg) ->
      forall i j x, at_ Vg i j = Some x -> 0 <= x).
Proof.
  intros Hvalid Ht Hsteps HU Hchi. split.
  - destruct (simulate_qe_nonneg self t steps paths true Hvalid Ht Hsteps HU)
      as (Sg & Vg & Hrun & HV).
    exists Sg, Vg. split; [exact Hrun |].
    intros i j x. apply grid_nonneg_at. exact HV.
  - intros Sg Vg Hrun i j x.
    pose proof Hvalid as (Hs & Hv & Hk & Hth & Hsg & Hrho).
    unfold simulate_exact in Hrun.
    rewrite pydiv_ok in Hrun by (apply INR_steps_nonzero; assumption).
    cbn [bind] in Hrun.
    do 3 bind_inv Hrun. injection Hrun as <- <-.
    apply grid_nonneg_at. constructor.
    + apply row_nonneg_full; assumption.
    + eapply (exact_loop_nonneg self (t / INR steps)); try eassumption.
      apply Rdiv_lt_0_compat; [assumption | apply lt_0_INR; lia].
Qed.

(** *** The inversion of the conditional distribution *)

(** The policy of the inversion, with [x_max = 10 dt (V[i] + V[i+1])] and
    [F] the conditional distribution function: when [F(x_max)] has the
    value [p], the sample of the integrated variance is [x_max] itself,
    without an error, if [p <= u], and otherwise it is what the bracketing
    root finder returns for [F(x) - u] on [[0, x_max]]. *)
Lemma bk_int_v_policy (self : Heston) (vprev vnext dt te sts u p : R) :
  _bk_prob self (max_int_v vprev vnext dt) vprev vnext dt te sts = Ok p ->
  max_int_v vprev vnext dt = 10 * dt * (vprev + vnext) /\
  (p <= u ->
   bk_int_v self vprev vnext dt te sts u = Ok (max_int_v vprev vnext dt)) /\
  (u < p ->
   bk_int_v self vprev vnext dt te sts u
   = brentq (fun x => p' <- _bk_prob self x vprev vnext dt te sts ;; Ok (p' - u))
            0 (max_int_v vprev vnext dt)).
Proof.
  intros HF. split; [unfold max_int_v; ring |].
  unfold bk_int_v. rewrite HF. cbn [bind].
  split; intros Hu; destruct (Rle_dec p u); try lra; reflexivity.
Qed.

Lemma mapM_nth_error (A B : Type) (f : A -> result B) (xs : list A) :
  forall (ys : list B),
    mapM f xs = Ok ys ->
    forall (k : nat) (x : A),
      nth_error xs k = Some x ->
      exists y, nth_error ys k = Some y /\ f x = Ok y.
Proof.
  induction xs as [| x0 xs IH]; intros ys H k x Hk.
  - destruct k; discriminate.
  - cbn [mapM] in H.
    apply bind_ok_inv in H. destruct H as (y0 & Hy0 & H).
    apply bind_ok_inv in H. destruct H as (ys' & Hys & H).
    injection H as <-.
    destruct k as [| k].
    + injection Hk as <-. exists y0. split; [reflexivity | assumption].
    + simpl in Hk. destruct (IH ys' Hys k x Hk) as (y & Hy & Hf).
      exists y. split; assumption.
Qed.

Lemma exact_loop_samples (self : Heston) (dt df nc te sts : R) (paths n i : nat)
      (Si Vi : row) (rest : list row * list row) (j : nat) :
  (j < paths)%nat ->
  exact_loop self dt df nc te sts paths (S n) i Si Vi = Ok rest ->
  exists Vn x,
    nth_error (snd rest) 0 = Some Vn /\
    bk_int_v self (nth j Vi 0) (nth j Vn 0) dt te sts (U_exact i j) = Ok x.
Proof.
  intros Hj H. cbn [exact_loop] in H.
  apply bind_ok_inv in H. destruct H as (scale' & _ & H).
  apply bind_ok_inv in H. destruct H as (int_v & Hint & H).
  apply bind_ok_inv in H. destruct H as (sq & _ & H).
  apply bind_ok_inv in H. destruct H as (srho & _ & H).
  apply bind_ok_inv in H. destruct H as (e & _ & H).
  apply bind_ok_inv in H. destruct H as (more & _ & H).
  injection H as <-. cbn [snd].
  destruct (mapM_nth_error _ _ _ _ int_v Hint j j) as (x & _ & Hx).
  { rewrite nth_error_seq. apply Nat.ltb_lt in Hj. rewrite Hj. reflexivity. }
  eexists; exists x. split; [reflexivity | exact Hx].
Qed.

(** C10.  The inversion target of step [i] and path [j] is the uniform
    draw multiplied by [0.9999]: for draws in [[0, 1)] it lies in
    [[0, 0.9999)], and in every step the exact simulator completes, the
    sample of path [j] is the inversion at that target. *)
Theorem U_exact_range (i j : nat) :
  0 <= uniform i j < 1 ->
  (U_exact i j = uniform i j * 0.9999 /\ 0 <= U_exact i j < 0.9999) /\
  (forall (self : Heston) (dt df nc te sts : R) (paths n : nat) (Si Vi : row)
          (rest : list row * list row),
      (j < paths)%nat ->
      exact_loop self dt df nc te sts paths (S n) i Si Vi = Ok rest ->
      exists Vn x,
        nth_error (snd rest) 0 = Some Vn /\
        bk_int_v self (nth j Vi 0) (nth j Vn 0) dt te sts (U_exact i j) = Ok x).
Proof.
  intros [H0 H1]. split.
  - unfold U_exact. split; [reflexivity | lra].
  - intros self dt df nc te sts paths n Si Vi rest Hj Hrun.
    exact (exact_loop_samples self dt df nc te sts paths n i Si Vi rest j Hj Hrun).
Qed.

(** *** The QE variance update *)

Lemma columns_length (paths : nat) (f : nat -> R) : length (columns paths f) = paths.
Proof. unfold columns. rewrite length_map, length_seq. reflexivity. Qed.

Lemma qe_loop_rows (self : Heston) (dt K0 K1 K2 K3 C1 C2 C3 : R) (paths n : nat) :
  forall (i0 : nat) (Vi Si : row) (k : nat),
    length Vi = paths -> (k < n)%nat ->
    exists Vk,
      length Vk = paths /\
      nth_error (Vi :: fst (qe_loop self dt K0 K1 K2 K3 C1 C2 C3 paths n i0 Vi Si)) k
      = Some Vk /\
      nth_error (Vi :: fst (qe_loop self dt K0 K1 K2 K3 C1 C2 C3 paths n i0 Vi Si))
                (S k)
      = Some (columns paths (fun j =>
                qe_next_v (theta self) C1 C2 C3 (nth j Vk 0)
                          (norm2 0%nat (i0 + k) j) (uniform (i0 + k) j))).
Proof.
  induction n as [| n IH]; intros i0 Vi Si k Hlen Hk; [lia |].
  destruct k as [| k].
  - exists Vi. rewrite Nat.add_0_r. simpl. auto.
  - simpl qe_loop. cbn [fst].
    match goal with
    | |- context [qe_loop self dt K0 K1 K2 K3 C1 C2 C3 paths n (S i0) ?a ?b] =>
        destruct (IH (S i0) a b k) as (Vk & HVk & Hrow & Hnext);
        [apply columns_length | lia |]
    end.
    exists Vk. replace (i0 + S k)%nat with (S i0 + k)%nat by lia.
    split; [exact HVk |]. split; [exact Hrow | exact Hnext].
Qed.

Lemma Rmax_quadratic_term (psi : R) :
  psi < 2 -> Rmax (4 / psi ^ 2 - 2 / psi) 0 = 4 / psi ^ 2 - 2 / psi.
Proof.
  intros H2. apply Rmax_left.
  destruct (Req_dec psi 0) as [-> | Hnz].
  - unfold Rdiv. replace (0 ^ 2) with 0 by ring. rewrite Rinv_0. lra.
  - replace (4 / psi ^ 2 - 2 / psi) with ((4 - 2 * psi) * (/ psi) ^ 2)
      by (field; assumption).
    apply Rmult_le_pos; [lra | apply pow2_ge_0].
Qed.

Lemma simulate_qe_step (self : Heston) (t : R) (steps paths : nat) (rv : bool)
      (i j : nat) :
  valid self -> (i < steps)%nat -> (j < paths)%nat ->
  exists Sg Vg vi,
    simulate_qe self t steps paths rv = Ok (returned rv Sg Vg) /\
    at_ Vg 0 j = Some (v self) /\
    at_ Vg i j = Some vi /\
    let C1 := exp (- kappa self * (t / INR steps)) in
    at_ Vg (S i) j
    = Some (qe_next_v (theta self) C1
              (sigma self ^ 2 * C1 * (1 - C1) / kappa self)
              (0.5 * theta self * sigma self ^ 2 * (1 - C1) ^ 2 / kappa self)
              vi (norm2 0%nat i j) (uniform i j)).
Proof.
  intros (Hs & Hv & Hk & Hth & Hsg & Hrho) Hi Hj.
  unfold simulate_qe.
  rewrite pydiv_ok by (apply INR_steps_nonzero; lia). cbn [bind].
  rewrite !(pydiv_ok _ (sigma self)) by lra. cbn [bind].
  rewrite !(pydiv_ok _ (kappa self)) by lra. cbn [bind].
  match goal with
  | |- context [qe_loop self ?dt ?K0 ?K1 ?K2 ?K3 ?C1 ?C2 ?C3 paths steps 0
                        ?V0 ?S0] =>
      destruct (qe_loop_rows self dt K0 K1 K2 K3 C1 C2 C3 paths steps 0%nat
                             V0 S0 i)
        as (Vk & HVk & Hrow & Hnext);
      [apply repeat_length | assumption |]
  end.
  simpl Nat.add in Hnext.
  eexists; eexists; exists (nth j Vk 0).
  split; [reflexivity |]. split; [| split].
  - apply at_full; assumption.
  - unfold at_. rewrite Hrow. apply nth_error_nth'. lia.
  - cbv zeta. unfold at_. rewrite Hnext. apply columns_nth_error. assumption.
Qed.

(** C5 as the code has it.  In the grid returned by the QE simulator,
    with [m] and [s_sq] the moment-matched mean and variance at [V[i, j]]
    and [psi = s_sq / m^2]: when [psi < 1.5] the next variance is
    [a (sqrt b_sq + Z)^2] with [b_sq = 2/psi - 1 + sqrt (4/psi^2 - 2/psi)]
    and [a = m / (1 + b_sq)], and when [psi >= 1.5] it is [0] if [U < p]
    and [ln ((1 - p) / (1 - U)) / beta] otherwise, with
    [p = (psi - 1) / (psi + 1)] and [beta = (1 - p) / m]. *)
Theorem qe_variance_update (self : Heston) (t : R) (steps paths : nat) (rv : bool)
        (i j : nat) :
  valid self -> (i < steps)%nat -> (j < paths)%nat ->
  exists Sg Vg vi vn,
    simulate_qe self t steps paths rv = Ok (returned rv Sg Vg) /\
    at_ Vg i j = Some vi /\ at_ Vg (S i) j = Some vn /\
    let dt := t / INR steps in
    let C1 := exp (- kappa self * dt) in
    let C2 := sigma self ^ 2 * C1 * (1 - C1) / kappa self in
    let C3 := 0.5 * theta self * sigma self ^ 2 * (1 - C1) ^ 2 / kappa self in
    let m := vi * C1 + theta self * (1 - C1) in
    let psi := (vi * C2 + C3) / m ^ 2 in
    let z := norm2 0%nat i j in
    let u := uniform i j in
    (psi < 1.5 ->
     let b_sq := 2 / psi - 1 + sqrt (4 / psi ^ 2 - 2 / psi) in
     vn = m / (1 + b_sq) * (sqrt b_sq + z) ^ 2) /\
    (1.5 <= psi ->
     let p := (psi - 1) / (psi + 1) in
     (u < p -> vn = 0) /\
     (p <= u -> vn = ln ((1 - p) / (1 - u)) / ((1 - p) / m))).
Proof.
  intros Hvalid Hi Hj.
  destruct (simulate_qe_step self t steps paths rv i j Hvalid Hi Hj)
    as (Sg & Vg & vi & Hrun & _ & Hvi & Hvn).
  exists Sg, Vg, vi. eexists.
  split; [exact Hrun |]. split; [exact Hvi |]. split; [exact Hvn |].
  cbv zeta. split.
  - intros Hpsi. unfold qe_next_v, qe_psi, qe_s_sq, qe_m, qe_a, qe_b_sq.
    destruct (Rlt_dec _ 1.5) as [H15 | H15]; [| contradiction].
    destruct (Rlt_dec _ 2) as [_ | H2]; [| lra].
    rewrite Rmax_quadratic_term by lra. reflexivity.
  - intros Hpsi. unfold qe_next_v, qe_psi, qe_s_sq, qe_m, qe_beta, qe_p.
    destruct (Rlt_dec _ 1.5) as [H15 | _]; [lra |].
    destruct (Rgt_dec _ 1) as [_ | H1]; [| lra].
    split; intros Hu; destruct (Rlt_dec _ _); try lra; reflexivity.
Qed.

(** *** The initial rows *)

(** C2 as the code has it.  For valid parameters, a horizon [t > 0] and
    at least one step, and for every path [j]: the Euler and QE simulators
    return grids, and every grid the exact simulator returns is such, that
    [V[0, j]] is [v]; [S[0, j]] is [s] for the QE and exact simulators, and
    for the Euler simulator it is the library's [exp] of the library's
    [log] of [s]. *)
Theorem initial_rows (self : Heston) (t : R) (steps paths : nat) (te sts : R)
        (rv : bool) (j : nat) :
  valid self -> 0 < t -> (1 <= steps)%nat -> (j < paths)%nat ->
  (exists Sg Vg,
      simulate_euler self t steps paths rv = Ok (returned rv Sg Vg) /\
      at_ Sg 0 j = Some (libm_exp (libm_log (s self))) /\
      at_ Vg 0 j = Some (v self)) /\
  (exists Sg Vg,
      simulate_qe self t steps paths rv = Ok (returned rv Sg Vg) /\
      at_ Sg 0 j = Some (s self) /\ at_ Vg 0 j = Some (v self)) /\
  (forall out,
      simulate_exact self t steps paths te sts rv = Ok out ->
      exists Sg Vg,
        out = returned rv Sg Vg /\
        at_ Sg 0 j = Some (s self) /\ at_ Vg 0 j = Some (v self)).
Proof.
  intros Hvalid Ht Hsteps Hj. split; [| split].
  - destruct (simulate_euler_returns self t steps paths rv Hvalid Ht Hsteps)
      as (Xs & Vs & ->).
    eexists; eexists; split; [reflexivity |]. split.
    + simpl map. rewrite at_first_row. unfold full.
      rewrite nth_error_map, nth_error_repeat by assumption. reflexivity.
    + apply at_full; assumption.
  - destruct (simulate_qe_returns self t steps paths rv Hvalid Hsteps)
      as (Ss & Vs & ->).
    eexists; eexists; split; [reflexivity |].
    split; apply at_full; assumption.
  - intros out Hout.
    destruct (simulate_exact_first_rows self t steps paths te sts rv out Hout)
      as (Ss & Vs & ->).
    eexists; eexists; split; [reflexivity |].
    split; apply at_full; assumption.
Qed.

(** *** No validation of numeric inputs *)

(** C4 as the code has it.  Whatever the quadrature reports about its
    convergence, the call price is returned, built from the quadrature's
    estimate alone; the error estimate and the status are not read. *)
Theorem call_price_from_estimate (self : Heston) (t k : R) :
  exists p,
    _call_price_scalar self t k = Ok p /\
    p = 0.5 * (s self - exp (- r self * t) * k)
        + 1 / PI * exp (- r self * t)
          * quad_value (quad _heston_integrand
                             [t; k; s self; v self; kappa self; theta self;
                              sigma self; rho self]).
Proof. eexists; split; reflexivity. Qed.

(** C9 as the code has it.  The pricing operation checks neither [t] nor
    [k] and returns a price for every pair, and each simulator called with
    [steps = 0] fails with the [ZeroDivisionError] of [dt = t/steps]. *)
Theorem degenerate_inputs (self : Heston) (paths : nat) (te sts : R) (rv : bool) :
  (forall t k, exists p, _call_price_scalar self t k = Ok p) /\
  (forall t, simulate_euler self t 0 paths rv = Raise ZeroDivisionError) /\
  (forall t, simulate_qe self t 0 paths rv = Raise ZeroDivisionError) /\
  (forall t, simulate_exact self t 0 paths te sts rv = Raise ZeroDivisionError).
Proof.
  split; [intros t k; eexists; reflexivity |].
  split; [intros t; apply simulate_euler_no_steps |].
  split; intros t; [apply simulate_qe_no_steps | apply simulate_exact_no_steps].
Qed.

(** *** The series of the conditional distribution function *)

Lemma bk_series_index (self : Heston) (x vprev vnext dt te h : R) (fuel : nat) :
  forall (j : nat) (prob : R) (st : nat * R),
    (j <= 1000)%nat ->
    bk_series self x vprev vnext dt te h fuel j prob = Ok st ->
    (j <= fst st <= 1000)%nat.
Proof.
  induction fuel as [| fuel IH]; intros j prob st Hj H; cbn [bk_series] in H.
  - injection H as <-. simpl. lia.
  - destruct (j <? 1000)%nat eqn:Ej.
    + apply Nat.ltb_lt in Ej. do 2 bind_inv H.
      destruct (Rge_dec _ _).
      * apply IH in H; simpl in *; lia.
      * injection H as <-. simpl. lia.
    + injection H as <-. simpl. lia.
Qed.

Lemma bk_series_fuel (self : Heston) (x vprev vnext dt te h : R) (fuel : nat) :
  forall (fuel' j : nat) (prob : R),
    (1000 - j < fuel)%nat -> (1000 - j < fuel')%nat ->
    bk_series self x vprev vnext dt te h fuel j prob
    = bk_series self x vprev vnext dt te h fuel' j prob.
Proof.
  induction fuel as [| fuel IH]; intros fuel' j prob Hf Hf'; [lia |].
  destruct fuel' as [| fuel']; [lia |]. cbn [bk_series].
  destruct (j <? 1000)%nat eqn:Ej; [| reflexivity].
  apply Nat.ltb_lt in Ej.
  destruct cmath_abs as [modulus |]; [cbn [bind] | reflexivity].
  destruct (_bk_cf self (h * INR j) vprev vnext dt) as [c |];
    [cbn [bind] | reflexivity].
  destruct (Rge_dec _ _); [| reflexivity].
  apply IH; lia.
Qed.

Lemma bk_series_returns (self : Heston) (x vprev vnext dt te h : R)
      (modulus : C -> R) :
  cmath_abs = Ok modulus ->
  (forall u, exists c, _bk_cf self u vprev vnext dt = Ok c) ->
  forall (fuel j : nat) (prob : R),
  exists st, bk_series self x vprev vnext dt te h fuel j prob = Ok st.
Proof.
  intros Habs Hcf. induction fuel as [| fuel IH]; intros j prob; cbn [bk_series].
  - eexists; reflexivity.
  - destruct (j <? 1000)%nat; [| eexists; reflexivity].
    rewrite Habs. cbn [bind].
    destruct (Hcf (h * INR j)) as [c ->]. cbn [bind].
    destruct (Rge_dec _ _); [apply IH | eexists; reflexivity].
Qed.

Lemma bk_series_first_test (self : Heston) (x vprev vnext dt te h : R)
      (fuel j : nat) (prob : R) (e : exn) :
  cmath_abs = Raise e -> (j < 1000)%nat ->
  bk_series self x vprev vnext dt te h (S fuel) j prob = Raise e.
Proof.
  intros Habs Hj. cbn [bk_series].
  apply Nat.ltb_lt in Hj. rewrite Hj, Habs. reflexivity.
Qed.

Lemma bk_prob_needs_modulus (self : Heston) (x vprev vnext dt te sts : R) (e : exn) :
  cmath_abs = Raise e -> 0 < x ->
  (forall p, _bk_prob self x vprev vnext dt te sts <> Ok p) /\
  (forall d1 d2,
      derivative (fun u => _bk_cf self u vprev vnext dt) 0 0.001 1 = Ok d1 ->
      derivative (fun u => _bk_cf self u vprev vnext dt) 0 0.001 2 = Ok d2 ->
      _bk_prob self x vprev vnext dt te sts = Raise e).
Proof.
  intros Habs Hx. unfold _bk_prob.
  destruct (Rle_dec x 0) as [H | _]; [lra |].
  set (loop := bk_series self x vprev vnext dt te).
  assert (Hloop : forall h prob, loop h 1000%nat 1%nat prob = Raise e).
  { intros h prob.
    exact (bk_series_first_test self x vprev vnext dt te h 999 1 prob e Habs
             ltac:(lia)). }
  clearbody loop.
  split.
  - intros p H. do 3 bind_inv H. rewrite Hloop in H. discriminate.
  - intros d1 d2 -> ->. cbn [bind].
    rewrite math_sqrt_ok by apply Rmax_l. cbn [bind].
    rewrite Hloop. reflexivity.
Qed.

(** With a modulus in place of [cmath.abs], and when the characteristic
    function and the two derivatives are obtained, the evaluation returns a
    probability after at most 999 terms. *)
Lemma bk_prob_returns_with_modulus (self : Heston) (x vprev vnext dt te sts : R)
      (modulus : C -> R) (d1 d2 : C) :
  cmath_abs = Ok modulus ->
  (forall u, exists c, _bk_cf self u vprev vnext dt = Ok c) ->
  derivative (fun u => _bk_cf self u vprev vnext dt) 0 0.001 1 = Ok d1 ->
  derivative (fun u => _bk_cf self u vprev vnext dt) 0 0.001 2 = Ok d2 ->
  exists p, _bk_prob self x vprev vnext dt te sts = Ok p /\ 0 <= p <= 1.
Proof.
  intros Habs Hcf Hd1 Hd2. unfold _bk_prob.
  destruct (Rle_dec x 0) as [_ | _].
  - exists 0. split; [reflexivity | lra].
  - rewrite Hd1, Hd2. cbn [bind].
    rewrite math_sqrt_ok by apply Rmax_l. cbn [bind].
    match goal with
    | |- context [bk_series self x vprev vnext dt te ?h ?fuel ?j ?prob] =>
        destruct (bk_series_returns self x vprev vnext dt te h modulus Habs Hcf
                    fuel j prob) as [st ->]
    end.
    cbn [bind]. eexists. split; [reflexivity |].
    split; [apply Rmax_r |].
    apply Rmax_lub; [apply Rmin_r | lra].
Qed.

(** ** Further properties of the simulators *)

#[local] Set Default Proof Using "Type".

Lemma pydiv_ok_inv (x y z : R) : pydiv x y = Ok z -> y <> 0 /\ z = x / y.
Proof.
  unfold pydiv. destruct (Req_dec_T y 0) as [_ | Hy]; [discriminate |].
  intros H. injection H as <-. split; [assumption | reflexivity].
Qed.

Lemma pydiv_raise_inv (x y : R) (e : exn) :
  pydiv x y = Raise e -> y = 0 /\ e = ZeroDivisionError.
Proof.
  unfold pydiv. destruct (Req_dec_T y 0) as [Hy | _]; [| discriminate].
  intros H. injection H as <-. split; [assumption | reflexivity].
Qed.

Lemma math_sqrt_ok_inv (x z : R) : math_sqrt x = Ok z -> 0 <= x /\ z = sqrt x.
Proof.
  unfold math_sqrt. destruct (Rlt_dec x 0) as [_ | Hx]; [discriminate |].
  intros H. injection H as <-. split; [lra | reflexivity].
Qed.

Lemma math_sqrt_raise_inv (x : R) (e : exn) :
  math_sqrt x = Raise e -> x < 0 /\ e = ValueError.
Proof.
  unfold math_sqrt. destruct (Rlt_dec x 0) as [Hx | _]; [| discriminate].
  intros H. injection H as <-. split; [assumption | reflexivity].
Qed.

Lemma bind_raise_inv (A B : Type) (m : result A) (k : A -> result B) (e : exn) :
  bind m k = Raise e -> m = Raise e \/ exists a, m = Ok a /\ k a = Raise e.
Proof.
  destruct m as [a | e']; simpl; intros H.
  - right. exists a. split; [reflexivity | assumption].
  - left. injection H as ->. reflexivity.
Qed.

Lemma INR_zero_iff (n : nat) : INR n = 0 <-> n = 0%nat.
Proof.
  split.
  - intros H. destruct n as [| n]; [reflexivity |].
    exfalso. revert H. apply not_0_INR. discriminate.
  - intros ->. reflexivity.
Qed.

Lemma Forall_columns (P : R -> Prop) (paths : nat) (f : nat -> R) :
  (forall j, (j < paths)%nat -> P (f j)) -> Forall P (columns paths f).
Proof.
  intros Hf. unfold columns. apply Forall_forall.
  intros y Hy. apply in_map_iff in Hy. destruct Hy as (j & <- & Hj).
  apply in_seq in Hj. apply Hf. lia.
Qed.

Lemma row_positive_nth (a : row) (j : nat) :
  row_positive a -> (j < length a)%nat -> 0 < nth j a 0.
Proof.
  intros Ha Hj. unfold row_positive in Ha. rewrite Forall_forall in Ha.
  apply Ha. apply nth_In. assumption.
Qed.

Lemma grid_positive_at (A : grid) (i j : nat) (x : R) :
  Forall row_positive A -> at_ A i j = Some x -> 0 < x.
Proof.
  intros HA. unfold at_. destruct (nth_error A i) as [a |] eqn:E; [| discriminate].
  intros Hx. rewrite Forall_forall in HA.
  assert (Ha : row_positive a) by (apply HA; eapply nth_error_In; eassumption).
  unfold row_positive in Ha. rewrite Forall_forall in Ha.
  apply Ha. eapply nth_error_In; eassumption.
Qed.

Lemma full_shape (paths : nat) (x : R) : length (full paths x) = paths.
Proof. apply repeat_length. Qed.

(** *** The QE scheme: when it returns, shape and sign of the prices *)

(** X1.  The QE simulator returns grids exactly when [steps], [sigma] and
    [kappa] are all different from zero, and the only exception it raises
    is [ZeroDivisionError]; neither the horizon, nor the initial price and
    variance, nor the remaining parameters are checked. *)
Theorem simulate_qe_returns_iff (self : Heston) (t : R) (steps paths : nat)
        (rv : bool) :
  ((exists out, simulate_qe self t steps paths rv = Ok out) <->
   (steps <> 0%nat /\ sigma self <> 0 /\ kappa self <> 0)) /\
  (forall e, simulate_qe self t steps paths rv = Raise e ->
             e = ZeroDivisionError).
Proof.
  split; [split |].
  - intros [out H]. unfold simulate_qe in H.
    apply bind_ok_inv in H. destruct H as (dt & Hdt & H).
    apply bind_ok_inv in H. destruct H as (K0 & HK0 & H).
    do 4 (apply bind_ok_inv in H; destruct H as (? & _ & H)).
    apply bind_ok_inv in H. destruct H as (C2 & HC2 & _).
    apply pydiv_ok_inv in Hdt, HK0, HC2.
    split; [| split; [exact (proj1 HK0) | exact (proj1 HC2)]].
    intros ->. apply (proj1 Hdt). reflexivity.
  - intros (Hsteps & Hsg & Hk). unfold simulate_qe.
    rewrite pydiv_ok by (rewrite INR_zero_iff; assumption). cbn [bind].
    rewrite !(pydiv_ok _ (sigma self)) by assumption. cbn [bind].
    rewrite !(pydiv_ok _ (kappa self)) by assumption. cbn [bind].
    eexists; reflexivity.
  - intros e H. unfold simulate_qe in H.
    repeat (apply bind_raise_inv in H;
            destruct H as [H | (? & _ & H)];
            [apply pydiv_raise_inv in H; exact (proj2 H) |]).
    discriminate.
Qed.

Lemma qe_loop_shape (self : Heston) (dt K0 K1 K2 K3 C1 C2 C3 : R) (paths n : nat) :
  forall (i : nat) (Vi Si : row),
    has_shape (fst (qe_loop self dt K0 K1 K2 K3 C1 C2 C3 paths n i Vi Si)) n paths /\
    has_shape (snd (qe_loop self dt K0 K1 K2 K3 C1 C2 C3 paths n i Vi Si)) n paths.
Proof.
  induction n as [| n IH]; intros i Vi Si; cbn [qe_loop fst snd].
  - split; split; [reflexivity | constructor | reflexivity | constructor].
  - match goal with
    | |- context [qe_loop self dt K0 K1 K2 K3 C1 C2 C3 paths n (S i) ?a ?b] =>
        destruct (IH (S i) a b) as [[HV1 HV2] [HS1 HS2]]
    end.
    split; split; cbn [length]; try (f_equal; assumption);
      constructor; try assumption; apply columns_length.
Qed.

Lemma has_shape_cons (a : row) (A : grid) (rows cols : nat) :
  length a = cols -> has_shape A rows cols -> has_shape (a :: A) (S rows) cols.
Proof.
  intros Ha [HA1 HA2]. split; [cbn [length]; f_equal; assumption |].
  constructor; assumption.
Qed.

(** X2.  When [steps], [sigma] and [kappa] are different from zero, both
    grids of the QE simulator have [steps + 1] rows of [paths] entries. *)
Theorem simulate_qe_shape (self : Heston) (t : R) (steps paths : nat) (rv : bool) :
  steps <> 0%nat -> sigma self <> 0 -> kappa self <> 0 ->
  exists Sg Vg,
    simulate_qe self t steps paths rv = Ok (returned rv Sg Vg) /\
    has_shape Sg (S steps) paths /\ has_shape Vg (S steps) paths.
Proof.
  intros Hsteps Hsg Hk. unfold simulate_qe.
  rewrite pydiv_ok by (rewrite INR_zero_iff; assumption). cbn [bind].
  rewrite !(pydiv_ok _ (sigma self)) by assumption. cbn [bind].
  rewrite !(pydiv_ok _ (kappa self)) by assumption. cbn [bind].
  eexists; eexists. split; [reflexivity |].
  match goal with
  | |- context [qe_loop self ?dt ?K0 ?K1 ?K2 ?K3 ?C1 ?C2 ?C3 paths steps 0 ?a ?b] =>
      destruct (qe_loop_shape self dt K0 K1 K2 K3 C1 C2 C3 paths steps 0%nat a b)
        as [HV HS]
  end.
  split; apply has_shape_cons; try apply full_shape; assumption.
Qed.

Lemma qe_loop_positive (self : Heston) (dt K0 K1 K2 K3 C1 C2 C3 : R) (paths n : nat) :
  forall (i : nat) (Vi Si : row),
    length Si = paths -> row_positive Si ->
    Forall row_positive
           (snd (qe_loop self dt K0 K1 K2 K3 C1 C2 C3 paths n i Vi Si)).
Proof.
  induction n as [| n IH]; intros i Vi Si Hlen HSi; cbn [qe_loop snd].
  - constructor.
  - match goal with
    | |- Forall _ (?Sn :: _) => assert (Hn : row_positive Sn)
    end.
    { apply Forall_columns. intros j Hj.
      apply Rmult_lt_0_compat; [| apply exp_pos].
      apply row_positive_nth; [assumption | lia]. }
    constructor; [exact Hn |].
    apply IH; [apply columns_length | exact Hn].
Qed.

Lemma row_positive_full (paths : nat) (x : R) : 0 < x -> row_positive (full paths x).
Proof.
  intros Hx. unfold row_positive, full. apply Forall_forall.
  intros y Hy. apply repeat_spec in Hy. subst y. assumption.
Qed.

(** X3.  For valid parameters, a horizon [t > 0], at least one step and
    uniform draws in [[0, 1)], every price the QE simulator returns is
    positive, whatever the normal draws. *)
Theorem simulate_qe_prices_positive (self : Heston) (t : R) (steps paths : nat)
        (rv : bool) :
  valid self -> 0 < t -> (1 <= steps)%nat ->
  (forall i j, 0 <= uniform i j < 1) ->
  exists Sg Vg,
    simulate_qe self t steps paths rv = Ok (returned rv Sg Vg) /\
    forall i j x, at_ Sg i j = Some x -> 0 < x.
Proof.
  intros (Hs & Hv & Hk & Hth & Hsg & Hrho) _ Hsteps _. unfold simulate_qe.
  rewrite pydiv_ok by (apply INR_steps_nonzero; assumption). cbn [bind].
  rewrite !(pydiv_ok _ (sigma self)) by lra. cbn [bind].
  rewrite !(pydiv_ok _ (kappa self)) by lra. cbn [bind].
  eexists; eexists. split; [reflexivity |].
  intros i j x. apply grid_positive_at.
  constructor; [apply row_positive_full; assumption |].
  apply qe_loop_positive; [apply full_shape | apply row_positive_full; assumption].
Qed.

(** *** Euler's scheme: when it returns, shape, truncation, zero horizon *)

Lemma math_log_ok_inv (x z : R) : math_log x = Ok z -> 0 < x /\ z = libm_log x.
Proof.
  unfold math_log. destruct (Rle_dec x 0) as [_ | Hx]; [discriminate |].
  intros H. injection H as <-. split; [lra | reflexivity].
Qed.

Lemma math_log_raise_inv (x : R) (e : exn) :
  math_log x = Raise e -> x <= 0 /\ e = ValueError.
Proof.
  unfold math_log. destruct (Rle_dec x 0) as [Hx | _]; [| discriminate].
  intros H. injection H as <-. split; [assumption | reflexivity].
Qed.

Lemma euler_loop_unfold (self : Heston) (dt : R) (paths n i : nat) (Vi Xi : row)
      (rest : list row * list row) :
  euler_loop self dt paths (S n) i Vi Xi = Ok rest ->
  0 <= dt /\ 0 <= 1 - rho self ^ 2 /\
  exists more,
    euler_loop self dt paths n (S i)
      (columns paths (fun j =>
         nth j Vi 0 + kappa self * (theta self - Rmax (nth j Vi 0) 0) * dt
         + sigma self * sqrt (Rmax (nth j Vi 0) 0) * norm2 0%nat i j * sqrt dt))
      (columns paths (fun j =>
         nth j Xi 0 + (r self - 0.5 * Rmax (nth j Vi 0) 0) * dt
         + sqrt (Rmax (nth j Vi 0) 0)
           * (rho self * norm2 0%nat i j
              + sqrt (1 - rho self ^ 2) * norm2 1%nat i j) * sqrt dt))
    = Ok more /\
    rest =
    (columns paths (fun j =>
       nth j Vi 0 + kappa self * (theta self - Rmax (nth j Vi 0) 0) * dt
       + sigma self * sqrt (Rmax (nth j Vi 0) 0) * norm2 0%nat i j * sqrt dt)
       :: fst more,
     columns paths (fun j =>
       nth j Xi 0 + (r self - 0.5 * Rmax (nth j Vi 0) 0) * dt
       + sqrt (Rmax (nth j Vi 0) 0)
         * (rho self * norm2 0%nat i j
            + sqrt (1 - rho self ^ 2) * norm2 1%nat i j) * sqrt dt)
       :: snd more).
Proof.
  intros H. cbn [euler_loop] in H.
  apply bind_ok_inv in H. destruct H as (sdt & Hsdt & H).
  apply bind_ok_inv in H. destruct H as (srho & Hsrho & H).
  apply bind_ok_inv in H. destruct H as (sdt' & Hsdt' & H).
  apply bind_ok_inv in H. destruct H as (more & Hmore & H).
  apply math_sqrt_ok_inv in Hsdt, Hsrho, Hsdt'.
  destruct Hsdt as [Hdt ->]. destruct Hsrho as [Hrho ->]. destruct Hsdt' as [_ ->].
  split; [assumption |]. split; [assumption |].
  exists more. split; [exact Hmore |]. injection H as <-. reflexivity.
Qed.

Lemma euler_loop_raise_inv (self : Heston) (dt : R) (paths n : nat) (e : exn) :
  forall (i : nat) (Vi Xi : row),
    euler_loop self dt paths n i Vi Xi = Raise e -> e = ValueError.
Proof.
  induction n as [| n IH]; intros i Vi Xi H; cbn [euler_loop] in H; [discriminate |].
  do 3 (apply bind_raise_inv in H;
        destruct H as [H | (? & _ & H)];
        [apply math_sqrt_raise_inv in H; exact (proj2 H) |]).
  apply bind_raise_inv in H. destruct H as [H | (? & _ & H)]; [| discriminate].
  eapply IH. eassumption.
Qed.

Lemma euler_loop_shape (self : Heston) (dt : R) (paths n : nat) :
  forall (i : nat) (Vi Xi : row) (rest : list row * list row),
    euler_loop self dt paths n i Vi Xi = Ok rest ->
    has_shape (fst rest) n paths /\ has_shape (snd rest) n paths.
Proof.
  induction n as [| n IH]; intros i Vi Xi rest H.
  - cbn [euler_loop] in H. injection H as <-.
    split; split; [reflexivity | constructor | reflexivity | constructor].
  - apply euler_loop_unfold in H. destruct H as (_ & _ & more & Hmore & ->).
    destruct (IH _ _ _ _ Hmore) as [HV HX]. cbn [fst snd].
    split; apply has_shape_cons; try apply columns_length; assumption.
Qed.

Lemma euler_loop_rows (self : Heston) (dt : R) (paths n : nat) :
  forall (i0 : nat) (Vi Xi : row) (rest : list row * list row) (k : nat),
    euler_loop self dt paths n i0 Vi Xi = Ok rest ->
    length Vi = paths -> (k < n)%nat ->
    exists Vk,
      length Vk = paths /\
      nth_error (Vi :: fst rest) k = Some Vk /\
      nth_error (Vi :: fst rest) (S k)
      = Some (columns paths (fun j =>
                nth j Vk 0 + kappa self * (theta self - Rmax (nth j Vk 0) 0) * dt
                + sigma self * sqrt (Rmax (nth j Vk 0) 0)
                  * norm2 0%nat (i0 + k) j * sqrt dt)).
Proof.
  induction n as [| n IH]; intros i0 Vi Xi rest k H Hlen Hk; [lia |].
  apply euler_loop_unfold in H. destruct H as (_ & _ & more & Hmore & ->).
  cbn [fst]. destruct k as [| k].
  - exists Vi. rewrite Nat.add_0_r. simpl. auto.
  - destruct (IH _ _ _ _ k Hmore (columns_length _ _) ltac:(lia))
      as (Vk & HVk & Hrow & Hnext).
    exists Vk. replace (i0 + S k)%nat with (S i0 + k)%nat by lia.
    split; [exact HVk |]. split; [exact Hrow | exact Hnext].
Qed.

Lemma euler_loop_ok (self : Heston) (dt : R) (paths n : nat) :
  0 <= dt -> 0 <= 1 - rho self ^ 2 ->
  forall (i : nat) (Vi Xi : row),
  exists rest, euler_loop self dt paths n i Vi Xi = Ok rest.
Proof.
  intros Hdt Hrho. induction n as [| n IH]; intros i Vi Xi; cbn [euler_loop].
  - eexists; reflexivity.
  - rewrite !math_sqrt_ok by assumption. cbn [bind].
    match goal with
    | |- context [euler_loop self dt paths n (S i) ?a ?b] =>
        destruct (IH (S i) a b) as [rest ->]
    end.
    cbn [bind]. eexists; reflexivity.
Qed.

Lemma simulate_euler_run (self : Heston) (t : R) (steps paths : nat) (rv : bool) :
  steps <> 0%nat -> 0 < s self -> 0 <= t / INR steps -> 0 <= 1 - rho self ^ 2 ->
  exists rest,
    euler_loop self (t / INR steps) paths steps 0
               (full paths (v self)) (full paths (libm_log (s self))) = Ok rest /\
    simulate_euler self t steps paths rv
    = Ok (returned rv
            (map (map libm_exp) (full paths (libm_log (s self)) :: snd rest))
            (full paths (v self) :: fst rest)).
Proof.
  intros Hsteps Hs Hdt Hrho. unfold simulate_euler.
  rewrite pydiv_ok by (rewrite INR_zero_iff; assumption). cbn [bind].
  unfold math_log. destruct (Rle_dec (s self) 0) as [H | _]; [lra |]. cbn [bind].
  destruct (euler_loop_ok self (t / INR steps) paths steps Hdt Hrho 0%nat
              (full paths (v self)) (full paths (libm_log (s self))))
    as [rest Hrest].
  exists rest. split; [exact Hrest |]. rewrite Hrest. reflexivity.
Qed.

(** X4.  The Euler simulator returns grids exactly when [steps] is not
    zero, the initial price is positive, the step [t/steps] is not negative
    and [rho^2 <= 1]; otherwise it raises [ZeroDivisionError] (from
    [t/steps]) or [ValueError] (from [math.log] or [math.sqrt]). *)
Theorem simulate_euler_returns_iff (self : Heston) (t : R) (steps paths : nat)
        (rv : bool) :
  ((exists out, simulate_euler self t steps paths rv = Ok out) <->
   (steps <> 0%nat /\ 0 < s self /\ 0 <= t / INR steps /\ 0 <= 1 - rho self ^ 2)) /\
  (forall e, simulate_euler self t steps paths rv = Raise e ->
             e = ZeroDivisionError \/ e = ValueError).
Proof.
  split; [split |].
  - intros [out H]. unfold simulate_euler in H.
    apply bind_ok_inv in H. destruct H as (dt & Hdt & H).
    apply bind_ok_inv in H. destruct H as (x0 & Hx0 & H).
    apply bind_ok_inv in H. destruct H as (rest & Hrest & _).
    apply pydiv_ok_inv in Hdt. destruct Hdt as [Hsteps ->].
    apply math_log_ok_inv in Hx0. destruct Hx0 as [Hs _].
    assert (Hn : steps <> 0%nat) by (intros ->; apply Hsteps; reflexivity).
    destruct steps as [| n]; [contradiction |].
    apply euler_loop_unfold in Hrest. destruct Hrest as (Hdt & Hrho & _).
    repeat split; assumption.
  - intros (Hsteps & Hs & Hdt & Hrho).
    destruct (simulate_euler_run self t steps paths rv Hsteps Hs Hdt Hrho)
      as (rest & _ & ->).
    eexists; reflexivity.
  - intros e H. unfold simulate_euler in H.
    apply bind_raise_inv in H. destruct H as [H | (dt & _ & H)];
      [apply pydiv_raise_inv in H; left; exact (proj2 H) |].
    apply bind_raise_inv in H. destruct H as [H | (x0 & _ & H)];
      [apply math_log_raise_inv in H; right; exact (proj2 H) |].
    apply bind_raise_inv in H. destruct H as [H | (rest & _ & H)];
      [| discriminate].
    right. eapply euler_loop_raise_inv. eassumption.
Qed.

Lemma has_shape_map (f : R -> R) (A : grid) (rows cols : nat) :
  has_shape A rows cols -> has_shape (map (map f) A) rows cols.
Proof.
  intros [H1 H2]. split; [rewrite length_map; assumption |].
  apply Forall_forall. intros a Ha. apply in_map_iff in Ha.
  destruct Ha as (a0 & <- & Ha0). rewrite length_map.
  rewrite Forall_forall in H2. apply H2. assumption.
Qed.

(** X5.  Whenever the Euler simulator returns, both grids have
    [steps + 1] rows of [paths] entries. *)
Theorem simulate_euler_shape (self : Heston) (t : R) (steps paths : nat) (rv : bool) :
  steps <> 0%nat -> 0 < s self -> 0 <= t / INR steps -> 0 <= 1 - rho self ^ 2 ->
  exists Sg Vg,
    simulate_euler self t steps paths rv = Ok (returned rv Sg Vg) /\
    has_shape Sg (S steps) paths /\ has_shape Vg (S steps) paths.
Proof.
  intros Hsteps Hs Hdt Hrho.
  destruct (simulate_euler_run self t steps paths rv Hsteps Hs Hdt Hrho)
    as (rest & Hrest & ->).
  destruct (euler_loop_shape _ _ _ _ _ _ _ _ Hrest) as [HV HX].
  eexists; eexists. split; [reflexivity |]. split.
  - apply has_shape_map. apply has_shape_cons; [apply full_shape | assumption].
  - apply has_shape_cons; [apply full_shape | assumption].
Qed.

(** X6.  Full truncation in the Euler scheme: a variance entry that is
    zero or negative is followed by that entry plus [kappa theta dt],
    whatever the normal draw of the step. *)
Theorem simulate_euler_truncation (self : Heston) (t : R) (steps paths : nat)
        (rv : bool) :
  steps <> 0%nat -> 0 < s self -> 0 <= t / INR steps -> 0 <= 1 - rho self ^ 2 ->
  exists Sg Vg,
    simulate_euler self t steps paths rv = Ok (returned rv Sg Vg) /\
    forall i j vi,
      (i < steps)%nat -> (j < paths)%nat ->
      at_ Vg i j = Some vi -> vi <= 0 ->
      at_ Vg (S i) j = Some (vi + kappa self * theta self * (t / INR steps)).
Proof.
  intros Hsteps Hs Hdt Hrho.
  destruct (simulate_euler_run self t steps paths rv Hsteps Hs Hdt Hrho)
    as (rest & Hrest & ->).
  eexists; eexists. split; [reflexivity |].
  intros i j vi Hi Hj Hvi Hneg.
  destruct (euler_loop_rows _ _ _ _ _ _ _ _ i Hrest (full_shape _ _) Hi)
    as (Vk & HVk & Hrow & Hnext).
  unfold at_ in *. rewrite Hrow in Hvi. rewrite Hnext.
  rewrite columns_nth_error by assumption.
  rewrite (nth_error_nth Vk j 0 Hvi).
  rewrite Rmax_right by assumption. rewrite sqrt_0. f_equal. ring.
Qed.

Lemma columns_ext (paths : nat) (f g : nat -> R) :
  (forall j, (j < paths)%nat -> f j = g j) -> columns paths f = columns paths g.
Proof.
  intros H. unfold columns. apply map_ext_in.
  intros j Hj. apply in_seq in Hj. apply H. lia.
Qed.

Lemma columns_nth_id (paths : nat) (a : row) :
  length a = paths -> columns paths (fun j => nth j a 0) = a.
Proof.
  intros Hlen. apply (nth_ext _ _ 0 0).
  - rewrite columns_length. symmetry. assumption.
  - intros j Hj. rewrite columns_length in Hj. apply columns_nth. assumption.
Qed.

Lemma euler_loop_zero_step (self : Heston) (paths n : nat) :
  forall (i : nat) (Vi Xi : row) (rest : list row * list row),
    euler_loop self 0 paths n i Vi Xi = Ok rest ->
    length Vi = paths -> length Xi = paths ->
    Forall (fun a => a = Vi) (fst rest) /\ Forall (fun a => a = Xi) (snd rest).
Proof.
  induction n as [| n IH]; intros i Vi Xi rest H HV HX.
  - cbn [euler_loop] in H. injection H as <-. split; constructor.
  - apply euler_loop_unfold in H. destruct H as (_ & _ & more & Hmore & ->).
    rewrite sqrt_0 in Hmore |- *.
    assert (EV : columns paths (fun j =>
                   nth j Vi 0 + kappa self * (theta self - Rmax (nth j Vi 0) 0) * 0
                   + sigma self * sqrt (Rmax (nth j Vi 0) 0) * norm2 0%nat i j * 0)
                 = Vi).
    { transitivity (columns paths (fun j => nth j Vi 0));
        [apply columns_ext; intros j _; ring | apply columns_nth_id; assumption]. }
    assert (EX : columns paths (fun j =>
                   nth j Xi 0 + (r self - 0.5 * Rmax (nth j Vi 0) 0) * 0
                   + sqrt (Rmax (nth j Vi 0) 0)
                     * (rho self * norm2 0%nat i j
                        + sqrt (1 - rho self ^ 2) * norm2 1%nat i j) * 0)
                 = Xi).
    { transitivity (columns paths (fun j => nth j Xi 0));
        [apply columns_ext; intros j _; ring | apply columns_nth_id; assumption]. }
    rewrite EV, EX in Hmore |- *.
    destruct (IH _ _ _ _ Hmore HV HX) as [IHV IHX]. cbn [fst snd].
    split; constructor; auto.
Qed.

Lemma constant_rows_nth_error (a : row) (A : list row) (i : nat) :
  Forall (fun b => b = a) A -> (i < length A)%nat -> nth_error A i = Some a.
Proof.
  intros HA Hi. destruct (nth_error A i) as [b |] eqn:E.
  - rewrite Forall_forall in HA. f_equal. apply HA.
    eapply nth_error_In. eassumption.
  - apply nth_error_None in E. lia.
Qed.

(** X7.  A zero horizon is accepted by the Euler simulator and gives
    constant paths: every variance entry is [v] and every price entry is
    the library's [exp] of the library's [log] of [s]. *)
Theorem simulate_euler_zero_horizon (self : Heston) (steps paths : nat) (rv : bool) :
  steps <> 0%nat -> 0 < s self -> 0 <= 1 - rho self ^ 2 ->
  exists Sg Vg,
    simulate_euler self 0 steps paths rv = Ok (returned rv Sg Vg) /\
    forall i j,
      (i <= steps)%nat -> (j < paths)%nat ->
      at_ Vg i j = Some (v self) /\
      at_ Sg i j = Some (libm_exp (libm_log (s self))).
Proof.
  intros Hsteps Hs Hrho.
  assert (Hdt : 0 / INR steps = 0) by (unfold Rdiv; ring).
  destruct (simulate_euler_run self 0 steps paths rv Hsteps Hs
              ltac:(rewrite Hdt; lra) Hrho) as (rest & Hrest & ->).
  rewrite Hdt in Hrest.
  destruct (euler_loop_shape _ _ _ _ _ _ _ _ Hrest) as [[HVlen _] [HXlen _]].
  destruct (euler_loop_zero_step _ _ _ _ _ _ _ Hrest (full_shape _ _)
              (full_shape _ _)) as [HV HX].
  eexists; eexists. split; [reflexivity |].
  intros i j Hi Hj. unfold at_. split.
  - rewrite (constant_rows_nth_error (full paths (v self)))
      by (try (constructor; [reflexivity | assumption]); cbn [length]; lia).
    apply nth_error_repeat. assumption.
  - rewrite nth_error_map.
    rewrite (constant_rows_nth_error (full paths (libm_log (s self))))
      by (try (constructor; [reflexivity | assumption]); cbn [length]; lia).
    cbn [option_map]. unfold full.
    rewrite nth_error_map, nth_error_repeat by assumption. reflexivity.
Qed.

(** X8.  When the library exponential is positive, every price the Euler
    simulator returns is positive, also where the variance path has gone
    negative. *)
Theorem simulate_euler_prices_positive (self : Heston) (t : R) (steps paths : nat)
        (rv : bool) :
  (forall x, 0 < libm_exp x) ->
  steps <> 0%nat -> 0 < s self -> 0 <= t / INR steps -> 0 <= 1 - rho self ^ 2 ->
  exists Sg Vg,
    simulate_euler self t steps paths rv = Ok (returned rv Sg Vg) /\
    forall i j x, at_ Sg i j = Some x -> 0 < x.
Proof.
  intros Hexp Hsteps Hs Hdt Hrho.
  destruct (simulate_euler_run self t steps paths rv Hsteps Hs Hdt Hrho)
    as (rest & _ & ->).
  eexists; eexists. split; [reflexivity |].
  intros i j x. apply grid_positive_at.
  apply Forall_forall. intros a Ha. apply in_map_iff in Ha.
  destruct Ha as (a0 & <- & _).
  unfold row_positive. apply Forall_forall. intros y Hy.
  apply in_map_iff in Hy. destruct Hy as (y0 & <- & _). apply Hexp.
Qed.

(** *** The exact scheme: one path, divisions, shape, sign of the prices *)

Lemma mapM_length (A B : Type) (f : A -> result B) (xs : list A) :
  forall (ys : list B), mapM f xs = Ok ys -> length ys = length xs.
Proof.
  induction xs as [| x0 xs IH]; intros ys H; cbn [mapM] in H.
  - injection H as <-. reflexivity.
  - apply bind_ok_inv in H. destruct H as (y0 & _ & H).
    apply bind_ok_inv in H. destruct H as (ys' & Hys & H).
    injection H as <-. cbn [length]. f_equal. apply IH. assumption.
Qed.

Lemma math_sqrt_array_ok_inv (a : list R) (z : R) :
  math_sqrt_array a = Ok z -> exists x, a = [x] /\ 0 <= x /\ z = sqrt x.
Proof.
  destruct a as [| x [| y a]]; cbn [math_sqrt_array]; intros H; try discriminate.
  apply math_sqrt_ok_inv in H. exists x. split; [reflexivity | exact H].
Qed.

Lemma math_exp_array_ok_inv (a : list R) (z : R) :
  math_exp_array a = Ok z -> exists x, a = [x] /\ z = exp x.
Proof.
  destruct a as [| x [| y a]]; cbn [math_exp_array]; intros H; try discriminate.
  injection H as <-. exists x. split; reflexivity.
Qed.

Lemma exact_loop_unfold (self : Heston) (dt df nc te sts : R) (paths n i : nat)
      (Si Vi : row) (rest : list row * list row) :
  exact_loop self dt df nc te sts paths (S n) i Si Vi = Ok rest ->
  kappa self <> 0 /\ paths = 1%nat /\ 0 <= 1 - rho self ^ 2 /\
  exists x e more,
    let Vn := exact_next_v df nc
                (sigma self ^ 2 * (1 - exp (- kappa self * dt)) / (4 * kappa self))
                paths i Vi in
    let Sn := columns paths (fun j => nth j Si 0 * e) in
    bk_int_v self (nth 0 Vi 0) (nth 0 Vn 0) dt te sts (U_exact i 0) = Ok x /\
    0 <= x /\ 0 < e /\
    exact_loop self dt df nc te sts paths n (S i) Sn Vn = Ok more /\
    rest = (Sn :: fst more, Vn :: snd more).
Proof.
  intros H. cbn [exact_loop] in H.
  apply bind_ok_inv in H. destruct H as (scale & Hscale & H).
  apply pydiv_ok_inv in Hscale. destruct Hscale as [Hk ->].
  apply bind_ok_inv in H. destruct H as (int_v & Hint & H).
  apply bind_ok_inv in H. destruct H as (sq & Hsq & H).
  apply bind_ok_inv in H. destruct H as (srho & Hsrho & H).
  apply bind_ok_inv in H. destruct H as (e & He & H).
  apply bind_ok_inv in H. destruct H as (more & Hmore & H).
  injection H as <-.
  apply math_sqrt_array_ok_inv in Hsq. destruct Hsq as (x & -> & Hx & _).
  apply math_sqrt_ok_inv in Hsrho. destruct Hsrho as [Hrho _].
  apply math_exp_array_ok_inv in He. destruct He as (y & _ & ->).
  pose proof (mapM_length _ _ _ _ _ Hint) as Hlen.
  rewrite length_seq in Hlen. cbn [length] in Hlen. symmetry in Hlen.
  assert (Hk' : kappa self <> 0) by (intros E; apply Hk; rewrite E; ring).
  split; [exact Hk' |]. split; [exact Hlen |]. split; [exact Hrho |].
  destruct (mapM_nth_error _ _ _ _ _ Hint 0%nat 0%nat) as (x' & Hx' & Hbk).
  { rewrite Hlen. reflexivity. }
  cbn [nth_error] in Hx'. injection Hx' as <-.
  exists x, (exp y), more. cbv zeta.
  split; [exact Hbk |]. split; [exact Hx |]. split; [apply exp_pos |].
  split; [exact Hmore | reflexivity].
Qed.

Lemma simulate_exact_unfold (self : Heston) (t : R) (steps paths : nat)
      (te sts : R) (rv : bool) (out : grid * option grid) :
  simulate_exact self t steps paths te sts rv = Ok out ->
  steps <> 0%nat /\ sigma self <> 0 /\ exp (- kappa self * (t / INR steps)) <> 1 /\
  exists rest,
    exact_loop self (t / INR steps)
               (4 * theta self * kappa self / sigma self ^ 2)
               (4 * kappa self * exp (- kappa self * (t / INR steps))
                / (sigma self ^ 2 * (1 - exp (- kappa self * (t / INR steps)))))
               te sts paths steps 0 (full paths (s self)) (full paths (v self))
    = Ok rest /\
    out = returned rv (full paths (s self) :: fst rest)
                   (full paths (v self) :: snd rest).
Proof.
  intros H. unfold simulate_exact in H.
  apply bind_ok_inv in H. destruct H as (dt & Hdt & H).
  apply pydiv_ok_inv in Hdt. destruct Hdt as [Hsteps ->].
  apply bind_ok_inv in H. destruct H as (df & Hdf & H).
  apply pydiv_ok_inv in Hdf. destruct Hdf as [Hsg ->].
  apply bind_ok_inv in H. destruct H as (nc & Hnc & H).
  apply pydiv_ok_inv in Hnc. destruct Hnc as [Hden ->].
  apply bind_ok_inv in H. destruct H as (rest & Hrest & H).
  injection H as <-.
  split; [intros E; apply Hsteps; rewrite E; reflexivity |].
  split; [intros E; apply Hsg; rewrite E; ring |].
  split; [intros E; apply Hden; rewrite E; ring |].
  exists rest. split; [exact Hrest | reflexivity].
Qed.

(** X9.  The exact simulator returns grids only for a single path, at
    least one step, a horizon, [kappa] and [sigma] different from zero, and
    a correlation with [rho^2 <= 1]: [math.sqrt] of the array of integrated
    variances accepts an array of one element only. *)
Theorem simulate_exact_single_path (self : Heston) (t : R) (steps paths : nat)
        (te sts : R) (rv : bool) (out : grid * option grid) :
  simulate_exact self t steps paths te sts rv = Ok out ->
  paths = 1%nat /\ steps <> 0%nat /\ t <> 0 /\ kappa self <> 0 /\
  sigma self <> 0 /\ rho self ^ 2 <= 1.
Proof.
  intros H. apply simulate_exact_unfold in H.
  destruct H as (Hsteps & Hsg & Hexp & rest & Hrest & _).
  destruct steps as [| n]; [contradiction |].
  apply exact_loop_unfold in Hrest. destruct Hrest as (Hk & Hpaths & Hrho & _).
  split; [exact Hpaths |]. split; [exact Hsteps |].
  split; [| split; [exact Hk | split; [exact Hsg | lra]]].
  intros ->. apply Hexp.
  replace (- kappa self * (0 / INR (S n))) with 0 by (unfold Rdiv; ring).
  apply exp_0.
Qed.

(** X10.  With no step, a zero horizon, [kappa = 0] or [sigma = 0] the
    exact simulator raises [ZeroDivisionError], whatever the draws. *)
Theorem simulate_exact_zero_division (self : Heston) (t : R) (steps paths : nat)
        (te sts : R) (rv : bool) :
  steps = 0%nat \/ t = 0 \/ kappa self = 0 \/ sigma self = 0 ->
  simulate_exact self t steps paths te sts rv = Raise ZeroDivisionError.
Proof.
  intros H. unfold simulate_exact.
  destruct (Nat.eq_dec steps 0) as [-> | Hsteps].
  { cbn [INR]. rewrite pydiv_zero. reflexivity. }
  rewrite pydiv_ok by (rewrite INR_zero_iff; assumption). cbn [bind].
  destruct (Req_dec_T (sigma self) 0) as [Hsg | Hsg].
  { replace (sigma self ^ 2) with 0 by (rewrite Hsg; ring).
    rewrite pydiv_zero. reflexivity. }
  rewrite (pydiv_ok _ (sigma self ^ 2)) by (apply pow_nonzero; assumption).
  cbn [bind].
  assert (E : exp (- kappa self * (t / INR steps)) = 1).
  { replace (- kappa self * (t / INR steps)) with 0; [apply exp_0 |].
    destruct H as [H | [H | [H | H]]];
      [contradiction | rewrite H | rewrite H | contradiction];
      unfold Rdiv; ring. }
  rewrite E.
  replace (sigma self ^ 2 * (1 - 1)) with 0 by ring.
  rewrite pydiv_zero. reflexivity.
Qed.

Lemma exact_loop_shape (self : Heston) (dt df nc te sts : R) (paths n : nat) :
  forall (i : nat) (Si Vi : row) (rest : list row * list row),
    exact_loop self dt df nc te sts paths n i Si Vi = Ok rest ->
    has_shape (fst rest) n paths /\ has_shape (snd rest) n paths.
Proof.
  induction n as [| n IH]; intros i Si Vi rest H.
  - cbn [exact_loop] in H. injection H as <-.
    split; split; [reflexivity | constructor | reflexivity | constructor].
  - apply exact_loop_unfold in H.
    destruct H as (_ & _ & _ & x & e & more & _ & _ & _ & Hmore & ->).
    destruct (IH _ _ _ _ Hmore) as [HS HV]. cbn [fst snd].
    split; apply has_shape_cons; try assumption;
      [| unfold exact_next_v]; apply columns_length.
Qed.

Lemma exact_loop_positive (self : Heston) (dt df nc te sts : R) (paths n : nat) :
  forall (i : nat) (Si Vi : row) (rest : list row * list row),
    length Si = paths -> row_positive Si ->
    exact_loop self dt df nc te sts paths n i Si Vi = Ok rest ->
    Forall row_positive (fst rest).
Proof.
  induction n as [| n IH]; intros i Si Vi rest Hlen HSi H.
  - cbn [exact_loop] in H. injection H as <-. constructor.
  - apply exact_loop_unfold in H.
    destruct H as (_ & _ & _ & x & e & more & _ & _ & He & Hmore & ->).
    cbn [fst].
    assert (Hn : row_positive (columns paths (fun j => nth j Si 0 * e))).
    { apply Forall_columns. intros j Hj.
      apply Rmult_lt_0_compat; [| exact He].
      apply row_positive_nth; [assumption | lia]. }
    constructor; [exact Hn |].
    eapply IH; [apply columns_length | exact Hn | exact Hmore].
Qed.

(** X11.  Both grids the exact simulator returns have [steps + 1] rows of
    [paths] entries. *)
Theorem simulate_exact_shape (self : Heston) (t : R) (steps paths : nat)
        (te sts : R) (rv : bool) (out : grid * option grid) :
  simulate_exact self t steps paths te sts rv = Ok out ->
  exists Sg Vg,
    out = returned rv Sg Vg /\
    has_shape Sg (S steps) paths /\ has_shape Vg (S steps) paths.
Proof.
  intros H. apply simulate_exact_unfold in H.
  destruct H as (_ & _ & _ & rest & Hrest & ->).
  destruct (exact_loop_shape _ _ _ _ _ _ _ _ _ _ _ _ Hrest) as [HS HV].
  eexists; eexists. split; [reflexivity |].
  split; apply has_shape_cons; try apply full_shape; assumption.
Qed.

(** X12.  From a positive initial price, every price the exact simulator
    returns is positive. *)
Theorem simulate_exact_prices_positive (self : Heston) (t : R) (steps paths : nat)
        (te sts : R) (rv : bool) (out : grid * option grid) :
  0 < s self ->
  simulate_exact self t steps paths te sts rv = Ok out ->
  exists Sg Vg,
    out = returned rv Sg Vg /\
    forall i j x, at_ Sg i j = Some x -> 0 < x.
Proof.
  intros Hs H. apply simulate_exact_unfold in H.
  destruct H as (_ & _ & _ & rest & Hrest & ->).
  eexists; eexists. split; [reflexivity |].
  intros i j x. apply grid_positive_at.
  constructor; [apply row_positive_full; assumption |].
  apply (exact_loop_positive _ _ _ _ _ _ _ _ _ _ _ _ (full_shape _ _)
           (row_positive_full _ _ Hs) Hrest).
Qed.

Lemma bk_int_v_ok_inv (self : Heston) (vprev vnext dt te sts u x : R) :
  bk_int_v self vprev vnext dt te sts u = Ok x ->
  exists p, _bk_prob self (max_int_v vprev vnext dt) vprev vnext dt te sts = Ok p.
Proof.
  unfold bk_int_v. intros H.
  apply bind_ok_inv in H. destruct H as (p & Hp & _).
  exists p. exact Hp.
Qed.

Lemma simulate_exact_needs_modulus (self : Heston) (t : R) (steps paths : nat)
      (te sts : R) (rv : bool) (e : exn) :
  cmath_abs = Raise e ->
  0 < v self -> 0 < kappa self -> 0 < t ->
  (forall a b i j, 0 <= ncx2 a b i j) ->
  forall out, simulate_exact self t steps paths te sts rv <> Ok out.
Proof.
  intros Habs Hv Hk Ht Hchi out H.
  apply simulate_exact_unfold in H.
  destruct H as (Hsteps & Hsg & _ & rest & Hrest & _).
  destruct steps as [| n]; [contradiction |].
  assert (Hdt : 0 < t / INR (S n)).
  { apply Rdiv_lt_0_compat; [assumption | apply lt_0_INR; lia]. }
  set (dt := t / INR (S n)) in *.
  apply exact_loop_unfold in Hrest.
  destruct Hrest as (_ & Hpaths & _ & x & e' & more & Hbk & _).
  cbv zeta in Hbk. subst paths.
  apply bk_int_v_ok_inv in Hbk. destruct Hbk as (p & Hp).
  revert Hp.
  apply (bk_prob_needs_modulus self _ _ _ dt te sts e Habs).
  unfold max_int_v, exact_next_v.
  rewrite columns_nth by lia. unfold full. cbn [repeat nth].
  pose proof (exp_neg_lt_1 (kappa self * dt) ltac:(nra)) as Hexp.
  replace (- kappa self * dt) with (- (kappa self * dt)) by ring.
  match goal with
  | |- context [ncx2 ?a ?b ?i ?j] => pose proof (Hchi a b i j) as Hc;
                                     set (c := ncx2 a b i j) in *
  end.
  assert (Hscale : 0 <= sigma self ^ 2 * (1 - exp (- (kappa self * dt)))
                        / (4 * kappa self)).
  { pose proof (pow2_ge_0 (sigma self)) as Hsq.
    unfold Rdiv. apply Rmult_le_pos; [nra |].
    left. apply Rinv_0_lt_compat. lra. }
  set (scale := sigma self ^ 2 * (1 - exp (- (kappa self * dt))) / (4 * kappa self))
    in *.
  assert (0 <= scale * c) by (apply Rmult_le_pos; assumption).
  nra.
Qed.

(** *** The characteristic function at maturity zero *)

Lemma Cdiv_raise_inv (a b : C) (e : exn) :
  Cdiv a b = Raise e -> (re b = 0 /\ im b = 0) /\ e = ZeroDivisionError.
Proof.
  unfold Cdiv. destruct (C_is_zero b) as [Hb | _]; [| discriminate].
  intros H. injection H as <-. split; [assumption | reflexivity].
Qed.

Lemma Cmul_one_r (a : C) : (a * mkC 1 0)%C = a.
Proof. destruct a as [x y]. apply Ceq; simpl; ring. Qed.

Lemma Cnorm2_pos (a : C) : re a <> 0 \/ im a <> 0 -> 0 < Cnorm2 a.
Proof. unfold Cnorm2. intros [H | H]; nra. Qed.

Lemma Cquot_self (a : C) : re a <> 0 \/ im a <> 0 -> Cquot a a = mkC 1 0.
Proof.
  intros Ha. pose proof (Cnorm2_pos a Ha) as HN.
  unfold Cquot. apply Ceq; cbn [re im]; unfold Cnorm2 in *; field; lra.
Qed.

Lemma Csqrt_re_pos (w : C) : 0 < re w -> 0 < re (Csqrt w).
Proof.
  intros Hw. unfold Csqrt. cbn [re].
  apply sqrt_lt_R0.
  assert (0 <= Cmod w) by (unfold Cmod; apply sqrt_pos).
  lra.
Qed.

(** The ratio of [a + d] and [a - d] differs from [1] when [d] has a
    positive real part. *)
Lemma one_minus_ratio_nonzero (a d : C) :
  0 < re d -> re (a - d)%C <> 0 \/ im (a - d)%C <> 0 ->
  re (RtoC 1 - Cquot (a + d) (a - d))%C <> 0 \/
  im (RtoC 1 - Cquot (a + d) (a - d))%C <> 0.
Proof.
  intros Hd Hq. pose proof (Cnorm2_pos _ Hq) as HN.
  destruct (Req_dec_T (re (RtoC 1 - Cquot (a + d) (a - d))%C) 0) as [Hre | Hre];
    [| left; exact Hre].
  right. intros Him. revert Hre Him.
  destruct a as [ar ai], d as [dr di]. unfold Cquot, Cnorm2 in *.
  cbn [re im Cadd Csub RtoC] in *.
  set (N := (ar - dr) * (ar - dr) + (ai - di) * (ai - di)) in *.
  intros Hre Him.
  assert (E1 : (ar + dr) * (ar - dr) + (ai + di) * (ai - di) = N).
  { apply (Rmult_eq_reg_r (/ N)); [| apply Rinv_neq_0_compat; lra].
    rewrite Rinv_r by lra. unfold Rdiv in Hre. lra. }
  assert (E2 : (ai + di) * (ar - dr) - (ar + dr) * (ai - di) = 0).
  { apply (Rmult_eq_reg_r (/ N)); [| apply Rinv_neq_0_compat; lra].
    unfold Rdiv in Him. lra. }
  assert (E3 : dr * N = 0) by (unfold N in *; nra).
  assert (dr = 0) by nra. lra.
Qed.

(** X13.  For valid parameters and every real frequency [u], the
    characteristic function of the log-price at maturity [t = 0] is returned
    and equals [exp(i u log s)]. *)
Theorem heston_cf_zero_maturity (h : Heston) (u : R) :
  valid h ->
  _heston_cf (s h) (v h) (kappa h) (theta h) (sigma h) (rho h) (RtoC u) 0
  = Ok (Cexp (RtoC u * RtoC (ln (s h)) * Ci)%C).
Proof.
  intros (Hs & Hv & Hk & Hth & Hsg & Hrho).
  destruct h as [s0 v0 k th sg rh r0]; simpl in *.
  unfold _heston_cf.
  set (a := (RtoC (rh * sg) * RtoC u * Ci - RtoC k)%C).
  set (w := (a * a + RtoC (sg ^ 2) * (RtoC u * Ci + RtoC u * RtoC u))%C).
  set (d := Csqrt w).
  assert (Hrea : re a = - k) by (unfold a; simpl; ring).
  assert (Hw : 0 < re w).
  { replace (re w) with (k * k + (sg * u) * (sg * u) * (1 - rh * rh))
      by (unfold w, a; simpl; ring).
    assert (0 <= (sg * u) * (sg * u)) by nra.
    assert (0 <= 1 - rh * rh) by nra.
    assert (0 <= (sg * u) * (sg * u) * (1 - rh * rh))
      by (apply Rmult_le_pos; assumption).
    nra. }
  assert (Hd : 0 < re d) by (apply Csqrt_re_pos; exact Hw).
  assert (Hq : re (a - d)%C <> 0 \/ im (a - d)%C <> 0).
  { left. cbn [re Csub]. rewrite Hrea. lra. }
  rewrite (Cdiv_ok _ _ Hq). cbn [bind].
  rewrite pydiv_ok by (apply pow_nonzero; lra). cbn [bind].
  assert (He : Cexp (- d * RtoC 0)%C = mkC 1 0).
  { rewrite <- Cexp_zero. f_equal. apply Ceq; simpl; ring. }
  rewrite !He, !Cmul_one_r.
  pose proof (one_minus_ratio_nonzero a d Hd Hq) as Hg.
  rewrite (Cdiv_ok _ _ Hg). cbn [bind].
  rewrite (Cquot_self _ Hg), Clog_one.
  rewrite Cdiv_ok by (left; simpl; nra). cbn [bind].
  replace (RtoC 1 - mkC 1 0)%C with (mkC 0 0) by (apply Ceq; simpl; ring).
  rewrite (Cdiv_ok _ _ Hg). cbn [bind]. rewrite Cquot_zero_l.
  f_equal. f_equal. apply Ceq; simpl; ring.
Qed.

(** X14.  With [sigma = 0] the characteristic function raises
    [ZeroDivisionError], whatever the other arguments. *)
Theorem heston_cf_zero_sigma (s v kappa theta rho : R) (u : C) (t : R) :
  _heston_cf s v kappa theta 0 rho u t = Raise ZeroDivisionError.
Proof.
  unfold _heston_cf.
  match goal with
  | |- bind ?m _ = _ => destruct m as [g | e] eqn:Eg
  end.
  - cbn [bind]. replace (0 ^ 2) with 0 by ring.
    rewrite pydiv_zero. reflexivity.
  - cbn [bind]. apply Cdiv_raise_inv in Eg. destruct Eg as [_ ->]. reflexivity.
Qed.

(** *** The conditional characteristic function *)

Lemma Cdiv_zero (a b : C) : re b = 0 -> im b = 0 -> Cdiv a b = Raise ZeroDivisionError.
Proof.
  intros Hr Hi. unfold Cdiv. destruct (C_is_zero b) as [_ | H]; [reflexivity |].
  exfalso. apply H. split; assumption.
Qed.

Lemma Csqrt_real_nonneg (y : R) : 0 <= y -> Csqrt (mkC y 0) = mkC (sqrt y) 0.
Proof.
  intros Hy. unfold Csqrt, Cmod, Cnorm2. cbn [re im].
  replace (y * y + 0 * 0) with (y * y) by ring.
  rewrite sqrt_square by assumption.
  replace ((y + y) / 2) with y by field.
  replace ((y - y) / 2) with 0 by field.
  rewrite sqrt_0. apply Ceq; cbn [re im]; [reflexivity | ring].
Qed.

Lemma Cquot_real (x y : R) : y <> 0 -> Cquot (mkC x 0) (mkC y 0) = mkC (x / y) 0.
Proof.
  intros Hy. unfold Cquot, Cnorm2. apply Ceq; cbn [re im]; field; assumption.
Qed.

(** X15.  Over a time step [dt = 0] the conditional characteristic
    function raises [ZeroDivisionError], whatever the other arguments. *)
Theorem bk_cf_zero_step (self : Heston) (u vprev vnext : R) :
  _bk_cf self u vprev vnext 0 = Raise ZeroDivisionError.
Proof.
  unfold _bk_cf.
  destruct (pydiv (4 * theta self * kappa self) (sigma self ^ 2)) as [df | e] eqn:Edf.
  - cbn [bind].
    replace (- kappa self * 0) with 0 by ring. rewrite exp_0.
    match goal with
    | |- context [Cexp ?z] =>
        replace (Cexp z) with (mkC 1 0)
          by (rewrite <- Cexp_zero; f_equal; apply Ceq; simpl; ring)
    end.
    rewrite Cdiv_ok by (left; simpl; lra). cbn [bind].
    rewrite Cdiv_zero by (simpl; ring). reflexivity.
  - apply pydiv_raise_inv in Edf. destruct Edf as [_ ->]. reflexivity.
Qed.

(** X16.  The conditional characteristic function is normalised: for
    valid parameters, a time step [dt > 0] and non-negative variances at
    both ends, its value at [u = 0] is [1], provided the Bessel function of
    a complex argument agrees with the one of a real argument on the reals
    and the Bessel function in the denominator is not zero. *)
Theorem bk_cf_at_zero (self : Heston) (vprev vnext dt : R) :
  valid self -> 0 < dt -> 0 <= vprev -> 0 <= vnext ->
  (forall nu x, iv_complex nu (RtoC x) = RtoC (iv_real nu x)) ->
  iv_real (0.5 * (4 * theta self * kappa self / sigma self ^ 2) - 1)
          (sqrt (vprev * vnext * exp (- kappa self * dt)) * 4 * kappa self
           / (sigma self ^ 2 * (1 - exp (- kappa self * dt)))) <> 0 ->
  _bk_cf self 0 vprev vnext dt = Ok (RtoC 1).
Proof.
  intros (Hs & Hv & Hk & Hth & Hsg & Hrho) Hdt Hvp Hvn Hiv Hb2.
  unfold _bk_cf.
  pose proof (exp_neg_lt_1 (kappa self * dt) ltac:(nra)) as Hc1.
  replace (- (kappa self * dt)) with (- kappa self * dt) in Hc1 by ring.
  set (c1 := exp (- kappa self * dt)) in *.
  assert (Hsq : sigma self ^ 2 <> 0) by (apply pow_nonzero; lra).
  assert (Hsq' : 0 < sigma self ^ 2) by nra.
  assert (Hg : Csqrt (RtoC (kappa self ^ 2)
                      - RtoC (2 * sigma self ^ 2 * 0) * Ci)%C
               = mkC (kappa self) 0).
  { rewrite <- Csqrt_square_real by lra. f_equal. apply Ceq; simpl; ring. }
  rewrite !Hg.
  assert (Hc2 : Cexp (- mkC (kappa self) 0 * RtoC dt)%C = mkC c1 0).
  { unfold Cexp. cbn [re im Cmul Copp RtoC].
    replace (- kappa self * 0 + - 0 * dt) with 0 by ring.
    rewrite cos_0, sin_0.
    replace (- kappa self * dt - - 0 * 0) with (- kappa self * dt) by ring.
    fold c1. apply Ceq; cbn [re im]; ring. }
  rewrite !Hc2.
  rewrite (pydiv_ok _ _ Hsq). cbn [bind].
  unfold RtoC at 1. rewrite Cdiv_ok by (left; cbn [re]; lra).
  rewrite Cquot_self by (left; cbn [re]; lra). cbn [bind].
  replace (Csqrt (mkC 1 0)) with (mkC 1 0)
    by (rewrite Csqrt_real_nonneg by lra; rewrite sqrt_1; reflexivity).
  replace (mkC (kappa self) 0 * mkC 1 0 * RtoC (1 - c1))%C
    with (mkC (kappa self * (1 - c1)) 0) by (apply Ceq; simpl; ring).
  replace (RtoC (kappa self) * (RtoC 1 - mkC c1 0))%C
    with (mkC (kappa self * (1 - c1)) 0) by (apply Ceq; simpl; ring).
  assert (Hkc : kappa self * (1 - c1) <> 0) by nra.
  rewrite Cdiv_ok by (left; cbn [re]; exact Hkc).
  rewrite Cquot_self by (left; cbn [re]; exact Hkc). cbn [bind].
  rewrite pydiv_ok by lra. cbn [bind].
  replace (mkC (kappa self) 0 * (RtoC 1 + mkC c1 0))%C
    with (mkC (kappa self * (1 + c1)) 0) by (apply Ceq; simpl; ring).
  replace (RtoC 1 - mkC c1 0)%C with (mkC (1 - c1) 0) by (apply Ceq; simpl; ring).
  rewrite Cdiv_ok by (left; cbn [re]; lra).
  rewrite Cquot_real by lra. cbn [bind].
  replace (Cexp (RtoC ((vprev + vnext) / sigma self ^ 2)
                 * (RtoC (kappa self * (1 + c1) / (1 - c1))
                    - mkC (kappa self * (1 + c1) / (1 - c1)) 0))%C)
    with (mkC 1 0)
    by (rewrite <- Cexp_zero; f_equal; apply Ceq; simpl; ring).
  assert (Hvv : 0 <= vprev * vnext * c1).
  { apply Rmult_le_pos; [apply Rmult_le_pos; assumption | lra]. }
  replace (RtoC (vprev * vnext) * mkC c1 0)%C with (mkC (vprev * vnext * c1) 0)
    by (apply Ceq; simpl; ring).
  rewrite Csqrt_real_nonneg by exact Hvv.
  replace (mkC (sqrt (vprev * vnext * c1)) 0 * RtoC 4 * mkC (kappa self) 0)%C
    with (mkC (sqrt (vprev * vnext * c1) * 4 * kappa self) 0)
    by (apply Ceq; simpl; ring).
  replace (RtoC (sigma self ^ 2) * mkC (1 - c1) 0)%C
    with (mkC (sigma self ^ 2 * (1 - c1)) 0) by (apply Ceq; simpl; ring).
  assert (Hden : sigma self ^ 2 * (1 - c1) <> 0) by nra.
  rewrite Cdiv_ok by (left; cbn [re]; exact Hden).
  rewrite Cquot_real by exact Hden. cbn [bind].
  rewrite math_sqrt_ok by exact Hvv. cbn [bind].
  rewrite pydiv_ok by exact Hden. cbn [bind].
  change (mkC (sqrt (vprev * vnext * c1) * 4 * kappa self
               / (sigma self ^ 2 * (1 - c1))) 0)
    with (RtoC (sqrt (vprev * vnext * c1) * 4 * kappa self
                / (sigma self ^ 2 * (1 - c1)))).
  rewrite Hiv.
  f_equal.
  replace (mkC 1 0 * mkC 1 0 * RtoC (iv_real
             (0.5 * (4 * theta self * kappa self / sigma self ^ 2) - 1)
             (sqrt (vprev * vnext * c1) * 4 * kappa self
              / (sigma self ^ 2 * (1 - c1)))))%C
    with (RtoC (iv_real
             (0.5 * (4 * theta self * kappa self / sigma self ^ 2) - 1)
             (sqrt (vprev * vnext * c1) * 4 * kappa self
              / (sigma self ^ 2 * (1 - c1)))))
    by (apply Ceq; simpl; ring).
  apply Cquot_self. left. cbn [re RtoC]. exact Hb2.
Qed.

(** *** The conditional distribution function *)

(** X17.  The loop of the series ends: from [j = 1] it tests its
    condition at most 1000 times, so that more tests than that change
    nothing, and the counter it ends with lies between 1 and 1000, which is
    at most 999 terms added. *)
Theorem bk_series_terminates (self : Heston) (x vprev vnext dt te h prob : R)
        (more : nat) :
  bk_series self x vprev vnext dt te h (1000 + more) 1 prob
  = bk_series self x vprev vnext dt te h 1000 1 prob /\
  (forall st,
      bk_series self x vprev vnext dt te h 1000 1 prob = Ok st ->
      (1 <= fst st <= 1000)%nat).
Proof.
  split.
  - apply bk_series_fuel; lia.
  - intros st H.
    apply (bk_series_index self x vprev vnext dt te h 1000 1 prob st);
      [lia | exact H].
Qed.

(** *** The integrand of Heston's formula *)

Lemma heston_cf_without_sigma (s v kappa theta rho : R) (u : C) (t : R) :
  _heston_cf s v kappa theta 0 rho u t = Raise ZeroDivisionError.
Proof.
  unfold _heston_cf.
  match goal with
  | |- bind ?m _ = _ => destruct m as [g | e] eqn:Eg
  end.
  - cbn [bind]. replace (0 ^ 2) with 0 by ring.
    rewrite pydiv_zero. reflexivity.
  - cbn [bind]. apply Cdiv_raise_inv in Eg. destruct Eg as [_ ->]. reflexivity.
Qed.

(** X18.  At the frequency [u = 0], the lower end of the range of
    integration, and at every frequency when [sigma = 0], the body of the
    integrand divides by zero, and the callback the quadrature integrates
    returns [0.0] there. *)
Theorem heston_integrand_at_zero (x : list R) :
  nth 0 x 0 = 0 \/ nth 7 x 0 = 0 -> 0 < nth 2 x 0 ->
  _heston_integrand_body x = Raise ZeroDivisionError /\
  _heston_integrand x = 0.
Proof.
  intros H _.
  assert (Hbody : _heston_integrand_body x = Raise ZeroDivisionError).
  { unfold _heston_integrand_body.
    destruct (Req_dec_T (nth 0 x 0) 0) as [Hu | Hu].
    - rewrite Hu. rewrite Cdiv_zero by (simpl; ring). reflexivity.
    - destruct H as [H | Hsg]; [contradiction |].
      rewrite Cdiv_ok by (right; simpl; lra). cbn [bind].
      rewrite Hsg, heston_cf_without_sigma. reflexivity. }
  split; [exact Hbody |].
  unfold _heston_integrand. rewrite Hbody. reflexivity.
Qed.

(** *** Vectorised pricing *)

Lemma mapM_total (A B : Type) (f : A -> result B) (g : A -> B) (xs : list A) :
  (forall x, f x = Ok (g x)) -> mapM f xs = Ok (map g xs).
Proof.
  intros Hf. induction xs as [| x xs IH]; cbn [mapM map]; [reflexivity |].
  rewrite Hf, IH. reflexivity.
Qed.

(** X19.  When the expiration times and the strikes go together and one
    of them at least is an array, [call_price] returns an array with one
    price for each pair of the broadcast, in its order: the price that
    [_call_price_scalar] gives for the pair. *)
Theorem call_price_array (self : Heston) (t k : arg) (b : list (R * R)) :
  broadcast t k = Ok b ->
  (forall x y, t = Scalar x -> k = Scalar y -> False) ->
  exists prices,
    call_price self t k = Ok (Array prices) /\
    length prices = length b /\
    forall n x y,
      nth_error b n = Some (x, y) ->
      exists p, nth_error prices n = Some p /\ _call_price_scalar self x y = Ok p.
Proof.
  intros Hb Harr.
  set (price := fun tk : R * R =>
         0.5 * (s self - exp (- r self * fst tk) * snd tk)
         + 1 / PI * exp (- r self * fst tk)
           * quad_value (quad _heston_integrand
                           [fst tk; snd tk; s self; v self; kappa self;
                            theta self; sigma self; rho self])).
  assert (Hall : mapM (fun tk => _call_price_scalar self (fst tk) (snd tk)) b
                 = Ok (map price b)).
  { apply mapM_total. intros tk. reflexivity. }
  exists (map price b). split; [| split].
  - unfold call_price. rewrite Hb. cbn [bind].
    destruct t as [x | xs], k as [y | ys];
      try (rewrite Hall; reflexivity).
    exfalso. exact (Harr x y eq_refl eq_refl).
  - apply length_map.
  - intros n x y Hn. exists (price (x, y)). split; [| reflexivity].
    rewrite nth_error_map, Hn. reflexivity.
Qed.

(** X20.  [call_price] raises exactly when both arguments are arrays
    whose lengths differ and are both different from one, and the exception
    is then the [ValueError] of the broadcast. *)
Theorem call_price_raises (self : Heston) (t k : arg) (e : exn) :
  call_price self t k = Raise e <->
  (e = ValueError /\
   exists xs ys, t = Array xs /\ k = Array ys /\
                 length xs <> length ys /\
                 length xs <> 1%nat /\ length ys <> 1%nat).
Proof.
  assert (Hall : forall b,
             mapM (fun tk => _call_price_scalar self (fst tk) (snd tk)) b
             = Ok (map (fun tk => 0.5 * (s self - exp (- r self * fst tk) * snd tk)
                                  + 1 / PI * exp (- r self * fst tk)
                                    * quad_value
                                        (quad _heston_integrand
                                              [fst tk; snd tk; s self; v self;
                                               kappa self; theta self; sigma self;
                                               rho self])) b)).
  { intros b. apply mapM_total. intros tk. reflexivity. }
  unfold call_price. split.
  - destruct t as [x | xs], k as [y | ys]; cbn [broadcast bind];
      try (rewrite Hall; discriminate); try discriminate.
    destruct (Nat.eqb (length xs) (length ys)) eqn:El.
    + cbn [bind]. rewrite Hall. discriminate.
    + apply Nat.eqb_neq in El.
      destruct xs as [| x0 [| x1 xs]], ys as [| y0 [| y1 ys]];
        cbn [bind]; try (rewrite Hall; discriminate);
        try (exfalso; apply El; reflexivity);
        intros H; injection H as <-;
        (split; [reflexivity |]);
        eexists; eexists; (split; [reflexivity |]); (split; [reflexivity |]);
        cbn [length] in *; repeat split; try lia.
  - intros (-> & xs & ys & -> & -> & Hne & Hx & Hy).
    cbn [broadcast]. apply Nat.eqb_neq in Hne. rewrite Hne.
    destruct xs as [| x0 [| x1 xs]]; [| exfalso; apply Hx; reflexivity |];
      (destruct ys as [| y0 [| y1 ys]]; [| exfalso; apply Hy; reflexivity |]);
      reflexivity.
Qed.

End Model.

(** ** Construction *)

(** C1 as the code has it.  Construction never fails and checks no range:
    for every choice of the seven values, in range or not, it returns an
    instance whose fields are exactly the values given, with [r] defaulting
    to [0]. *)
Theorem Heston_init_stores_arguments (s0 v0 k0 th0 sg0 rh0 : R) (r0 : option R) :
  exists h,
    Heston_init s0 v0 k0 th0 sg0 rh0 r0 = Ok h /\
    s h = s0 /\ v h = v0 /\ kappa h = k0 /\ theta h = th0 /\ sigma h = sg0 /\
    rho h = rh0 /\ r h = match r0 with Some x => x | None => 0 end.
Proof. eexists. split; [reflexivity |]. simpl. repeat split. Qed.

(** C1 fails as stated: a negative price, a negative variance, a zero
    mean-reversion speed, long-run variance and volatility of variance, and
    a correlation of [2] are accepted. *)
Lemma Heston_init_accepts_invalid :
  exists h, Heston_init (-1) (-1) 0 0 0 2 None = Ok h /\ ~ valid h.
Proof.
  eexists. split; [reflexivity |].
  unfold valid; simpl. lra.
Qed.

(** ** Pricing *)

(** C4 fails as stated: with a quadrature that reports that it has not
    converged (status [1], error estimate [1000]), the call price at
    [t = 1], [k = 100] is a value, not an error. *)
Lemma call_price_returns_without_convergence :
  quad_converged
    (quad_not_converged _heston_integrand
       [1; 100; s reference_model; v reference_model; kappa reference_model;
        theta reference_model; sigma reference_model; rho reference_model])
  = false /\
  exists p, _call_price_scalar quad_not_converged reference_model 1 100 = Ok p.
Proof. split; [reflexivity | eexists; reflexivity]. Qed.

(** C9 fails as stated: the pricing operation returns a value at [t = 0]
    and at the strike [k = -1]. *)
Lemma call_price_accepts_degenerate_inputs :
  (exists p, _call_price_scalar quad_not_converged reference_model 0 100 = Ok p) /\
  (exists p, _call_price_scalar quad_not_converged reference_model 1 (-1) = Ok p).
Proof. split; eexists; reflexivity. Qed.

(** ** The conditional distribution function under CPython *)

(** C6, on the code: for every [x > 0] the evaluation of [_bk_prob] ends
    in an exception and returns no probability; when the two numerical
    derivatives are obtained, the exception is the [AttributeError] of the
    first test of the loop condition. *)
Theorem bk_prob_positive_x_raises
        (iv_real : R -> R -> R) (iv_complex : R -> C -> C)
        (derivative : (R -> result C) -> R -> R -> nat -> result C)
        (self : Heston) (x vprev vnext dt te sts : R) :
  0 < x ->
  (forall p,
      _bk_prob iv_real iv_complex derivative cmath_abs_cpython
               self x vprev vnext dt te sts <> Ok p) /\
  (forall d1 d2,
      derivative (fun u => _bk_cf iv_real iv_complex self u vprev vnext dt)
                 0 0.001 1%nat = Ok d1 ->
      derivative (fun u => _bk_cf iv_real iv_complex self u vprev vnext dt)
                 0 0.001 2%nat = Ok d2 ->
      _bk_prob iv_real iv_complex derivative cmath_abs_cpython
               self x vprev vnext dt te sts = Raise AttributeError).
Proof.
  intros Hx.
  apply (bk_prob_needs_modulus iv_real iv_complex derivative cmath_abs_cpython
           self x vprev vnext dt te sts AttributeError); [reflexivity | assumption].
Qed.

Lemma bk_prob_positive_x_raises_witness :
  _bk_prob iv_real_one iv_complex_one derivative_zero cmath_abs_cpython
           reference_model 1 0.04 0.04 1 0.00001 5 = Raise AttributeError.
Proof.
  apply (bk_prob_positive_x_raises iv_real_one iv_complex_one derivative_zero
           reference_model 1 0.04 0.04 1 0.00001 5 ltac:(lra)) with (RtoC 0) (RtoC 0);
    reflexivity.
Defined.

(** ** The inversion of the conditional distribution under CPython *)

(** C7, on the code: for every path and step whose bound
    [x_max = 10 dt (V[i] + V[i+1])] is positive, the inversion yields no
    sample: the evaluation of [F(x_max)] ends in an exception, so that the
    bound is not stored and the root finder is not reached; when the two
    numerical derivatives are obtained, the exception is the
    [AttributeError] of [cmath.abs]. *)
Theorem bk_int_v_positive_bound_raises
        (iv_real : R -> R -> R) (iv_complex : R -> C -> C)
        (derivative : (R -> result C) -> R -> R -> nat -> result C)
        (brentq : (R -> result R) -> R -> R -> result R)
        (self : Heston) (vprev vnext dt te sts u : R) :
  0 < max_int_v vprev vnext dt ->
  (forall x,
      bk_int_v iv_real iv_complex derivative brentq cmath_abs_cpython
               self vprev vnext dt te sts u <> Ok x) /\
  (forall d1 d2,
      derivative (fun w => _bk_cf iv_real iv_complex self w vprev vnext dt)
                 0 0.001 1%nat = Ok d1 ->
      derivative (fun w => _bk_cf iv_real iv_complex self w vprev vnext dt)
                 0 0.001 2%nat = Ok d2 ->
      bk_int_v iv_real iv_complex derivative brentq cmath_abs_cpython
               self vprev vnext dt te sts u = Raise AttributeError).
Proof.
  intros Hx.
  destruct (bk_prob_needs_modulus iv_real iv_complex derivative cmath_abs_cpython
              self (max_int_v vprev vnext dt) vprev vnext dt te sts AttributeError
              eq_refl Hx) as [Hnone Hraise].
  split.
  - intros x H. unfold bk_int_v in H.
    apply bind_ok_inv in H. destruct H as (p & Hp & _).
    exact (Hnone p Hp).
  - intros d1 d2 Hd1 Hd2. unfold bk_int_v.
    rewrite (Hraise d1 d2 Hd1 Hd2). reflexivity.
Qed.

Lemma bk_int_v_positive_bound_raises_witness :
  bk_int_v iv_real_one iv_complex_one derivative_zero brentq_left
           cmath_abs_cpython reference_model 0.04 0.04 1 0.00001 5 0.5
  = Raise AttributeError.
Proof.
  apply (bk_int_v_positive_bound_raises iv_real_one iv_complex_one
           derivative_zero brentq_left reference_model 0.04 0.04 1 0.00001 5 0.5
           ltac:(unfold max_int_v; lra)) with (RtoC 0) (RtoC 0);
    reflexivity.
Defined.

(** ** The statements at concrete inputs *)

Lemma reference_model_valid : valid reference_model.
Proof. unfold valid, reference_model; simpl. lra. Qed.

Lemma heston_cf_at_zero_witness :
  _heston_cf (s reference_model) (v reference_model) (kappa reference_model)
             (theta reference_model) (sigma reference_model)
             (rho reference_model) (RtoC 0) 1
  = Ok (RtoC 1).
Proof.
  apply (heston_cf_at_zero reference_model 1).
  - unfold valid, reference_model; simpl. lra.
  - lra.
Defined.

Lemma variance_grid_nonneg_witness :
  (exists Sg Vg,
      simulate_qe zero_norm2 zero_draws reference_model 1 1 1 true
      = Ok (Sg, Some Vg) /\
      forall i j x, at_ Vg i j = Some x -> 0 <= x) /\
  (forall Sg Vg,
      simulate_exact zero_draws zero_draws zero_ncx2 iv_real_one iv_complex_one
                     derivative_zero brentq_left cmath_abs_cpython
                     reference_model 1 1 1 0.00001 5 true
      = Ok (Sg, Some Vg) ->
      forall i j x, at_ Vg i j = Some x -> 0 <= x).
Proof.
  apply (variance_grid_nonneg zero_norm2 zero_draws zero_draws zero_ncx2
           iv_real_one iv_complex_one derivative_zero brentq_left
           cmath_abs_cpython reference_model 1 1 1 0.00001 5).
  - unfold valid, reference_model; simpl. lra.
  - lra.
  - lia.
  - intros i j. unfold zero_draws. lra.
  - intros a b i j. unfold zero_ncx2. lra.
Defined.

Lemma U_exact_range_witness :
  (U_exact zero_draws 0 0 = zero_draws 0%nat 0%nat * 0.9999 /\
   0 <= U_exact zero_draws 0 0 < 0.9999) /\
  (forall (self : Heston) (dt df nc te sts : R) (paths n : nat) (Si Vi : row)
          (rest : list row * list row),
      (0 < paths)%nat ->
      exact_loop zero_draws zero_draws zero_ncx2 iv_real_one iv_complex_one
                 derivative_zero brentq_left cmath_abs_cpython
                 self dt df nc te sts paths (S n) 0 Si Vi = Ok rest ->
      exists Vn x,
        nth_error (snd rest) 0 = Some Vn /\
        bk_int_v iv_real_one iv_complex_one derivative_zero brentq_left
                 cmath_abs_cpython self (nth 0 Vi 0) (nth 0 Vn 0) dt te sts
                 (U_exact zero_draws 0 0) = Ok x).
Proof.
  apply (U_exact_range zero_draws zero_draws zero_ncx2 iv_real_one
           iv_complex_one derivative_zero brentq_left cmath_abs_cpython 0 0).
  unfold zero_draws. lra.
Defined.

Lemma qe_variance_update_witness :
  exists Sg Vg vi vn,
    simulate_qe zero_norm2 zero_draws reference_model 1 1 1 true
    = Ok (returned true Sg Vg) /\
    at_ Vg 0 0 = Some vi /\ at_ Vg 1 0 = Some vn /\
    let dt := 1 / INR 1 in
    let C1 := exp (- kappa reference_model * dt) in
    let C2 := sigma reference_model ^ 2 * C1 * (1 - C1) / kappa reference_model in
    let C3 := 0.5 * theta reference_model * sigma reference_model ^ 2
              * (1 - C1) ^ 2 / kappa reference_model in
    let m := vi * C1 + theta reference_model * (1 - C1) in
    let psi := (vi * C2 + C3) / m ^ 2 in
    let z := zero_norm2 0%nat 0%nat 0%nat in
    let u := zero_draws 0%nat 0%nat in
    (psi < 1.5 ->
     let b_sq := 2 / psi - 1 + sqrt (4 / psi ^ 2 - 2 / psi) in
     vn = m / (1 + b_sq) * (sqrt b_sq + z) ^ 2) /\
    (1.5 <= psi ->
     let p := (psi - 1) / (psi + 1) in
     (u < p -> vn = 0) /\
     (p <= u -> vn = ln ((1 - p) / (1 - u)) / ((1 - p) / m))).
Proof.
  apply (qe_variance_update zero_norm2 zero_draws reference_model 1 1 1 true 0 0).
  - unfold valid, reference_model; simpl. lra.
  - lia.
  - lia.
Defined.

(** ** The QE threshold *)

Lemma threshold_model_valid : valid threshold_model.
Proof. unfold valid, threshold_model; simpl. lra. Qed.

Lemma threshold_psi (c : R) :
  c <> 1 ->
  qe_psi 3 c (3 ^ 2 * c * (1 - c) / 1) (0.5 * 3 * 3 ^ 2 * (1 - c) ^ 2 / 1) 0 = 1.5.
Proof.
  intros Hc. unfold qe_psi, qe_s_sq, qe_m.
  replace 1.5 with (3 / 2) by lra. replace 0.5 with (1 / 2) by lra.
  field. lra.
Qed.

(** C5 fails as stated: for [threshold_model], one step of length [1] and
    the draws [Z = 0], [U = 0], the dispersion ratio at [V[0, 0] = 0] is
    exactly [1.5], so that [psi <= 1.5], and the next variance is [0], the
    atom of the exponential branch, and not [a (sqrt b_sq + Z)^2]. *)
Lemma qe_threshold_counterexample :
  exists Sg Vg vn C1 C2 C3,
    simulate_qe zero_norm2 zero_draws threshold_model 1 1 1 true
    = Ok (Sg, Some Vg) /\
    at_ Vg 0 0 = Some 0 /\ at_ Vg 1 0 = Some vn /\
    C1 = exp (-1) /\
    C2 = 3 ^ 2 * C1 * (1 - C1) / 1 /\
    C3 = 0.5 * 3 * 3 ^ 2 * (1 - C1) ^ 2 / 1 /\
    qe_psi 3 C1 C2 C3 0 <= 1.5 /\
    vn <> qe_a (qe_m 3 C1 0) (qe_psi 3 C1 C2 C3 0)
          * (sqrt (qe_b_sq (qe_psi 3 C1 C2 C3 0)) + 0) ^ 2.
Proof.
  destruct (simulate_qe_step zero_norm2 zero_draws threshold_model 1 1 1 true 0 0
              threshold_model_valid ltac:(lia) ltac:(lia))
    as (Sg & Vg & vi & Hrun & H0 & Hvi & Hvn).
  rewrite H0 in Hvi. injection Hvi as <-.
  cbv zeta in Hvn. unfold threshold_model in Hvn, H0.
  cbn [v kappa theta sigma] in Hvn, H0. change (INR 1) with 1 in Hvn.
  replace (- (1) * (1 / 1)) with (-1) in Hvn by lra.
  pose proof (exp_neg_lt_1 1 ltac:(lra)) as Hexp.
  replace (- (1)) with (-1) in Hexp by lra.
  assert (Hpsi := threshold_psi (exp (-1)) ltac:(lra)).
  exists Sg, Vg. eexists. exists (exp (-1)). eexists. eexists.
  split; [exact Hrun |]. split; [exact H0 |]. split; [exact Hvn |].
  split; [reflexivity |]. split; [reflexivity |]. split; [reflexivity |].
  rewrite Hpsi.
  split; [lra |].
  unfold qe_next_v. rewrite Hpsi.
  destruct (Rlt_dec 1.5 1.5) as [H | _]; [lra |].
  unfold qe_p. destruct (Rgt_dec 1.5 1) as [_ | H]; [| lra].
  unfold zero_draws. destruct (Rlt_dec 0 ((1.5 - 1) / (1.5 + 1))) as [_ | H]; [| lra].
  pose proof (qe_b_sq_pos 1.5 ltac:(lra)) as Hb.
  assert (Hm : 0 < qe_m 3 (exp (-1)) 0) by (apply qe_m_pos; lra).
  assert (Hs : 0 < sqrt (qe_b_sq 1.5)) by (apply sqrt_lt_R0; assumption).
  assert (Ha : 0 < qe_a (qe_m 3 (exp (-1)) 0) 1.5)
    by (unfold qe_a; apply Rdiv_lt_0_compat; lra).
  apply Rlt_not_eq. apply Rmult_lt_0_compat; [assumption |].
  rewrite Rplus_0_r. apply pow_lt. assumption.
Qed.

(** ** Enclosures of the exponential *)

Lemma exp_double (u : R) : exp (2 * u) = exp u * exp u.
Proof. replace (2 * u) with (u + u) by ring. apply exp_plus. Qed.

Lemma E1_le_exp (x : R) (N : nat) : 0 <= x -> E1 x N <= exp x.
Proof.
  intros Hx. unfold E1. apply sum_incr.
  - exact (E1_cvg x).
  - intros n. apply Rmult_le_pos.
    + left. apply Rinv_0_lt_compat. apply INR_fact_lt_0.
    + apply pow_le. assumption.
Qed.

Lemma exp_term_nonneg (x : R) (k : nat) : 0 <= x -> 0 <= exp_term x k.
Proof.
  intros Hx. unfold exp_term. apply Rmult_le_pos.
  - left. apply Rinv_0_lt_compat. apply INR_fact_lt_0.
  - apply pow_le. assumption.
Qed.

Lemma exp_term_halves (x : R) (k : nat) :
  0 <= x <= 1 -> (1 <= k)%nat -> 2 * exp_term x (S k) <= exp_term x k.
Proof.
  intros [H0 H1] Hk. unfold exp_term.
  rewrite fact_simpl, mult_INR. simpl pow.
  pose proof (INR_fact_lt_0 k) as Hf.
  assert (Hk2 : 2 <= INR (S k)).
  { rewrite S_INR. apply le_INR in Hk. simpl in Hk. lra. }
  rewrite Rinv_mult.
  assert (Hinv : / INR (S k) <= / 2) by (apply Rinv_le_contravar; lra).
  assert (Hinv0 : 0 < / INR (S k)) by (apply Rinv_0_lt_compat; lra).
  assert (Hp : 0 <= x ^ k) by (apply pow_le; assumption).
  assert (Hfi : 0 < / INR (fact k)) by (apply Rinv_0_lt_compat; assumption).
  assert (Ht : 0 <= / INR (fact k) * x ^ k) by (apply Rmult_le_pos; lra).
  replace (2 * (/ INR (S k) * / INR (fact k) * (x * x ^ k)))
    with ((2 * / INR (S k) * x) * (/ INR (fact k) * x ^ k)) by ring.
  rewrite <- (Rmult_1_l (/ INR (fact k) * x ^ k)) at 2.
  apply Rmult_le_compat_r; [assumption |]. nra.
Qed.

Lemma E1_tail (x : R) (N : nat) :
  0 <= x <= 1 ->
  forall j, E1 x (S N + j) + exp_term x (S N + j) <= E1 x N + 2 * exp_term x (S N).
Proof.
  intros Hx. induction j as [| j IH].
  - rewrite Nat.add_0_r. unfold E1. rewrite tech5. fold (exp_term x (S N)). lra.
  - replace (S N + S j)%nat with (S (S N + j)) by lia.
    unfold E1 in *. rewrite tech5. fold (exp_term x (S (S N + j))).
    pose proof (exp_term_halves x (S N + j) Hx ltac:(lia)). lra.
Qed.

Lemma E1_growing (x : R) : 0 <= x -> forall n m, (n <= m)%nat -> E1 x n <= E1 x m.
Proof.
  intros Hx n m Hnm. induction Hnm as [| m Hnm IH]; [lra |].
  unfold E1 in *. rewrite tech5. fold (exp_term x (S m)).
  pose proof (exp_term_nonneg x (S m) Hx). lra.
Qed.

Lemma exp_le_E1_tail (x : R) (N : nat) :
  0 <= x <= 1 -> exp x <= E1 x N + 2 * exp_term x (S N).
Proof.
  intros Hx.
  apply (Rle_cv_lim (Un := E1 x) (Vn := fun _ => E1 x N + 2 * exp_term x (S N))).
  - intros n. destruct (le_lt_dec n N) as [Hn | Hn].
    + pose proof (E1_growing x (proj1 Hx) n N Hn).
      pose proof (exp_term_nonneg x (S N) (proj1 Hx)). lra.
    + replace n with (S N + (n - S N))%nat by lia.
      pose proof (E1_tail x N Hx (n - S N)).
      pose proof (exp_term_nonneg x (S N + (n - S N)) (proj1 Hx)). lra.
  - apply E1_cvg.
  - intros eps Heps. exists 0%nat. intros n _.
    unfold Rdist. rewrite Rminus_diag, Rabs_R0. assumption.
Qed.

Lemma exp_taylor4 (x : R) :
  0 <= x <= 1 ->
  1 + x + x * x / 2 + x * x * x / 6 + x * x * x * x / 24 <= exp x
  /\ exp x <= 1 + x + x * x / 2 + x * x * x / 6 + x * x * x * x / 24
              + x * x * x * x * x / 60.
Proof.
  intros Hx.
  pose proof (E1_le_exp x 4 (proj1 Hx)) as Hlo.
  pose proof (exp_le_E1_tail x 4 Hx) as Hhi.
  unfold E1, exp_term in *. simpl in Hlo, Hhi.
  split; lra.
Qed.

Lemma IZR_div_floor (p q : Z) :
  (0 < q)%Z -> IZR (p / q) * IZR q <= IZR p < (IZR (p / q) + 1) * IZR q.
Proof.
  intros Hq.
  pose proof (Z.mul_div_le p q Hq) as Hlo.
  pose proof (Z.mul_succ_div_gt p q Hq) as Hhi.
  apply IZR_le in Hlo. apply IZR_lt in Hhi.
  rewrite mult_IZR in Hlo. rewrite mult_IZR, succ_IZR in Hhi. lra.
Qed.

Lemma taylor_sound (m : Z) :
  (0 <= m <= pow2_66)%Z ->
  IZR (taylor_down m) / IZR pow2_100 <= exp (IZR m / IZR pow2_66)
  /\ exp (IZR m / IZR pow2_66) <= IZR (taylor_up m) / IZR pow2_100.
Proof.
  intros [H0 H1]. apply IZR_le in H0, H1.
  set (X := IZR m) in *.
  assert (Hx : 0 <= X / IZR pow2_66 <= 1).
  { unfold pow2_66 in *. split.
    - apply Rmult_le_pos; [assumption | lra].
    - lra. }
  destruct (exp_taylor4 _ Hx) as [Hlo Hhi].
  pose proof (IZR_div_floor (m * m) den2 ltac:(reflexivity)) as Q2.
  pose proof (IZR_div_floor (m * m * m) den3 ltac:(reflexivity)) as Q3.
  pose proof (IZR_div_floor (m * m * m * m) den4 ltac:(reflexivity)) as Q4.
  pose proof (IZR_div_floor (m * m * m * m * m) den5 ltac:(reflexivity)) as Q5.
  rewrite !mult_IZR in Q2. rewrite !mult_IZR in Q3. rewrite !mult_IZR in Q4.
  rewrite !mult_IZR in Q5. fold X in Q2, Q3, Q4, Q5.
  unfold taylor_down, taylor_up.
  rewrite !plus_IZR, !mult_IZR. fold X.
  set (q2 := IZR (m * m / den2)) in *.
  set (q3 := IZR (m * m * m / den3)) in *.
  set (q4 := IZR (m * m * m * m / den4)) in *.
  set (q5 := IZR (m * m * m * m * m / den5)) in *.
  set (x := X / IZR pow2_66) in *.
  assert (E1 : X = x * IZR pow2_66) by (unfold x, pow2_66; field).
  assert (E2 : X * X = (x * x / 2) * IZR den2 * IZR pow2_100)
    by (rewrite E1; unfold pow2_66, den2, pow2_100; field).
  assert (E3 : X * X * X = (x * x * x / 6) * IZR den3 * IZR pow2_100)
    by (rewrite E1; unfold pow2_66, den3, pow2_100; field).
  assert (E4 : X * X * X * X = (x * x * x * x / 24) * IZR den4 * IZR pow2_100)
    by (rewrite E1; unfold pow2_66, den4, pow2_100; field).
  assert (E5 : X * X * X * X * X = (x * x * x * x * x / 60) * IZR den5 * IZR pow2_100)
    by (rewrite E1; unfold pow2_66, den5, pow2_100; field).
  rewrite E2 in Q2. rewrite E3 in Q3. rewrite E4 in Q4. rewrite E5 in Q5.
  set (t2 := x * x / 2) in *. set (t3 := x * x * x / 6) in *.
  set (t4 := x * x * x * x / 24) in *. set (t5 := x * x * x * x * x / 60) in *.
  assert (E34 : X * IZR pow2_34 = x * IZR pow2_100)
    by (rewrite E1; unfold pow2_66, pow2_34, pow2_100; field).
  rewrite E34.
  unfold den2, den3, den4, den5, pow2_100 in *.
  split.
  - apply Rle_trans with (2 := Hlo).
    apply (Rmult_le_reg_r 1267650600228229401496703205376); [lra |].
    unfold Rdiv. rewrite Rmult_assoc, Rinv_l by lra. nra.
  - apply Rle_trans with (1 := Hhi).
    apply (Rmult_le_reg_r 1267650600228229401496703205376); [lra |].
    unfold Rdiv. rewrite Rmult_assoc, Rinv_l by lra. nra.
Qed.

Lemma pow2_100_pos : 0 < IZR pow2_100.
Proof. unfold pow2_100. lra. Qed.

Lemma Rdiv_le_left (a b c : R) : 0 < c -> a <= b * c -> a / c <= b.
Proof.
  intros Hc H. apply (Rmult_le_reg_r c); [assumption |].
  unfold Rdiv. rewrite Rmult_assoc, Rinv_l by lra. lra.
Qed.

Lemma Rdiv_le_right (a b c : R) : 0 < c -> a * c <= b -> a <= b / c.
Proof.
  intros Hc H. apply (Rmult_le_reg_r c); [assumption |].
  unfold Rdiv. rewrite Rmult_assoc, Rinv_l by lra. lra.
Qed.

Lemma square_down_sound (a : Z) (u : R) :
  0 <= IZR a -> IZR a / IZR pow2_100 <= exp u ->
  0 <= IZR (square_down a) /\ IZR (square_down a) / IZR pow2_100 <= exp (2 * u).
Proof.
  intros Ha Hu. pose proof pow2_100_pos as HS.
  destruct (IZR_div_floor (a * a) pow2_100 ltac:(reflexivity)) as [Hq _].
  rewrite mult_IZR in Hq. fold (square_down a) in Hq.
  split.
  - apply IZR_le. apply le_IZR in Ha. unfold square_down.
    apply Z.div_pos; [nia | reflexivity].
  - rewrite exp_double.
    assert (H0 : 0 <= IZR a / IZR pow2_100)
      by (apply Rmult_le_pos; [assumption | left; apply Rinv_0_lt_compat; assumption]).
    apply Rle_trans with (IZR a / IZR pow2_100 * (IZR a / IZR pow2_100)); [| nra].
    apply Rdiv_le_left; [assumption |].
    replace (IZR a / IZR pow2_100 * (IZR a / IZR pow2_100) * IZR pow2_100)
      with (IZR a * IZR a / IZR pow2_100) by (field; lra).
    apply Rdiv_le_right; assumption.
Qed.

Lemma square_up_sound (b : Z) (u : R) :
  exp u <= IZR b / IZR pow2_100 -> exp (2 * u) <= IZR (square_up b) / IZR pow2_100.
Proof.
  intros Hu. pose proof pow2_100_pos as HS. pose proof (exp_pos u) as He.
  destruct (IZR_div_floor (b * b) pow2_100 ltac:(reflexivity)) as [_ Hq].
  rewrite mult_IZR in Hq.
  unfold square_up. rewrite plus_IZR. rewrite exp_double.
  apply Rle_trans with (IZR b / IZR pow2_100 * (IZR b / IZR pow2_100)); [nra |].
  apply Rdiv_le_right; [assumption |].
  replace (IZR b / IZR pow2_100 * (IZR b / IZR pow2_100) * IZR pow2_100)
    with (IZR b * IZR b / IZR pow2_100) by (field; lra).
  apply Rdiv_le_left; [assumption |]. lra.
Qed.

Lemma iter_square_down_sound (k : nat) (a : Z) (u : R) :
  0 <= IZR a -> IZR a / IZR pow2_100 <= exp u ->
  0 <= IZR (Nat.iter k square_down a)
  /\ IZR (Nat.iter k square_down a) / IZR pow2_100 <= exp (2 ^ k * u).
Proof.
  intros Ha Hu. induction k as [| k [IH0 IH]].
  - simpl. rewrite Rmult_1_l. split; assumption.
  - cbn [Nat.iter nat_rect].
    replace (2 ^ S k * u) with (2 * (2 ^ k * u)) by (simpl; ring).
    apply square_down_sound; assumption.
Qed.

Lemma iter_square_up_sound (k : nat) (b : Z) (u : R) :
  exp u <= IZR b / IZR pow2_100 ->
  exp (2 ^ k * u) <= IZR (Nat.iter k square_up b) / IZR pow2_100.
Proof.
  intros Hu. induction k as [| k IH].
  - simpl. rewrite Rmult_1_l. assumption.
  - cbn [Nat.iter nat_rect].
    replace (2 ^ S k * u) with (2 * (2 ^ k * u)) by (simpl; ring).
    apply square_up_sound; assumption.
Qed.

Lemma exp_enclosure (m : Z) :
  (0 <= m <= pow2_66)%Z ->
  IZR (exp_down m) / IZR pow2_100 <= exp (IZR m / IZR pow2_50)
  /\ exp (IZR m / IZR pow2_50) <= IZR (exp_up m) / IZR pow2_100.
Proof.
  intros Hm. destruct (taylor_sound m Hm) as [Hlo Hhi].
  assert (Harg : IZR m / IZR pow2_50 = 2 ^ 16 * (IZR m / IZR pow2_66))
    by (unfold pow2_50, pow2_66; field).
  rewrite Harg. unfold exp_down, exp_up. split.
  - apply iter_square_down_sound; [| assumption].
    apply IZR_le. unfold taylor_down.
    destruct Hm as [Hm _].
    pose proof (Z.div_pos (m * m) den2 ltac:(nia) ltac:(reflexivity)).
    pose proof (Z.div_pos (m * m * m) den3 ltac:(nia) ltac:(reflexivity)).
    pose proof (Z.div_pos (m * m * m * m) den4 ltac:(nia) ltac:(reflexivity)).
    unfold pow2_100, pow2_34. lia.
  - apply iter_square_up_sound. assumption.
Qed.

Lemma exp_down_log100_above : (100 * pow2_100 + two_ulps <= exp_down log100_above)%Z.
Proof. apply Z.leb_le. vm_compute. reflexivity. Qed.

Lemma exp_up_log100_below :
  (exp_up (log100_above - 1) <= 100 * pow2_100 - two_ulps)%Z.
Proof. apply Z.leb_le. vm_compute. reflexivity. Qed.

(** [exp] just above and just below [ln 100] on the binary64 grid. *)
Lemma exp_log100_above : 100 + 2 * / 2 ^ 46 <= exp (IZR log100_above / IZR pow2_50).
Proof.
  destruct (exp_enclosure log100_above ltac:(unfold log100_above, pow2_66; lia)) as [H _].
  pose proof exp_down_log100_above as Hz. apply IZR_le in Hz.
  rewrite plus_IZR, mult_IZR in Hz.
  apply Rle_trans with (2 := H).
  apply Rdiv_le_right; [apply pow2_100_pos |].
  unfold pow2_100, two_ulps in *. lra.
Qed.

Lemma exp_log100_below :
  exp (IZR (log100_above - 1) / IZR pow2_50) <= 100 - 2 * / 2 ^ 46.
Proof.
  destruct (exp_enclosure (log100_above - 1) ltac:(unfold log100_above, pow2_66; lia))
    as [_ H].
  pose proof exp_up_log100_below as Hz. apply IZR_le in Hz.
  rewrite minus_IZR, mult_IZR in Hz.
  apply Rle_trans with (1 := H).
  apply Rdiv_le_left; [apply pow2_100_pos |].
  unfold pow2_100, two_ulps in *. lra.
Qed.

(** ** Binary64 numbers near the logarithm of 100 *)

Lemma powerRZ_2_nonneg (k : Z) : (0 <= k)%Z -> powerRZ 2 k = IZR (2 ^ k).
Proof.
  intros Hk. rewrite <- (Z2Nat.id k Hk).
  rewrite <- pow_powerRZ. rewrite pow_IZR. reflexivity.
Qed.

Lemma binary64_grid (y : R) :
  binary64 y -> 4 <= y -> exists n : Z, y = IZR n / IZR pow2_50.
Proof.
  intros (m & e & Hm & He & ->) Hy.
  destruct (Z_le_gt_dec (-50) e) as [Hge | Hlt].
  - exists (m * 2 ^ (e + 50))%Z.
    rewrite mult_IZR, <- powerRZ_2_nonneg by lia.
    rewrite powerRZ_add by lra.
    rewrite (powerRZ_2_nonneg 50) by lia.
    change (2 ^ 50)%Z with pow2_50. field. unfold pow2_50. lra.
  - exfalso.
    assert (Hpow : powerRZ 2 e <= / 2251799813685248).
    { replace e with (- (- e))%Z by lia. rewrite powerRZ_neg'.
      rewrite powerRZ_2_nonneg by lia.
      apply Rinv_le_contravar; [lra |].
      change 2251799813685248 with (IZR (2 ^ 51)). apply IZR_le.
      apply Z.pow_le_mono_r; lia. }
    assert (Hpos : 0 < powerRZ 2 e) by (apply powerRZ_lt; lra).
    apply IZR_lt in Hm. rewrite abs_IZR in Hm.
    change (IZR (2 ^ 53)) with 9007199254740992 in Hm.
    apply Rabs_def2 in Hm. destruct Hm as [Hm _].
    pose proof (Rmult_lt_compat_r _ _ _ Hpos Hm) as Hprod.
    revert Hy Hpow Hprod. generalize (powerRZ 2 e). intros p Hy Hpow Hprod. lra.
Qed.

Lemma exp_4_le_81 : exp 4 <= 81.
Proof.
  pose proof exp_le_3 as H1. pose proof (exp_pos 1) as H0.
  replace 4 with (2 * (2 * 1)) by ring. rewrite !exp_double.
  assert (H2 : 0 <= exp 1 * exp 1 <= 9) by nra. nra.
Qed.

(** No binary64 number has an exponential within two units in the last
    place of [100]. *)
Lemma exp_binary64_far_from_100 (y : R) :
  binary64 y -> ~ Rabs (100 - exp y) < 2 * / 2 ^ 46.
Proof.
  intros Hy Hclose. apply Rabs_def2 in Hclose. destruct Hclose as [Hhi Hlo].
  assert (H4 : 4 <= y).
  { destruct (Rle_lt_dec 4 y) as [H | H]; [assumption |].
    pose proof (exp_increasing y 4 H). pose proof exp_4_le_81. lra. }
  destruct (binary64_grid y Hy H4) as [n ->].
  pose proof exp_log100_above as Habove.
  pose proof exp_log100_below as Hbelow.
  assert (Hc : 0 < / IZR pow2_50) by (unfold pow2_50; lra).
  destruct (Z_le_gt_dec log100_above n) as [Hn | Hn].
  - apply IZR_le in Hn.
    assert (Harg : IZR log100_above / IZR pow2_50 <= IZR n / IZR pow2_50)
      by (unfold Rdiv; apply Rmult_le_compat_r; lra).
    destruct Harg as [Harg | Harg].
    + pose proof (exp_increasing _ _ Harg). lra.
    + rewrite Harg in Habove. lra.
  - assert (Hn' : (n <= log100_above - 1)%Z) by lia.
    apply IZR_le in Hn'.
    assert (Harg : IZR n / IZR pow2_50 <= IZR (log100_above - 1) / IZR pow2_50)
      by (unfold Rdiv; apply Rmult_le_compat_r; lra).
    destruct Harg as [Harg | Harg].
    + pose proof (exp_increasing _ _ Harg). lra.
    + rewrite <- Harg in Hbelow. lra.
Qed.

Lemma log100_above_binary64 : binary64 (IZR log100_above / IZR pow2_50).
Proof.
  exists log100_above, (-50)%Z. split; [reflexivity |]. split; [lia |].
  change (-50)%Z with (- (50))%Z.
  rewrite powerRZ_neg', powerRZ_2_nonneg by lia. reflexivity.
Qed.

(** ** The initial price of the Euler scheme *)

Lemma library_exp_not_100 (f : R -> R) (y : R) :
  binary64 y -> exp_relative_error f -> f y <> 100.
Proof.
  intros Hy Hf Heq. apply (exp_binary64_far_from_100 y Hy).
  pose proof (Hf y) as Herr. rewrite Heq in Herr.
  pose proof (exp_pos y) as Hpos.
  apply Rabs_def1.
  - destruct (Rcase_abs (100 - exp y)) as [Hneg | Hnn].
    + lra.
    + rewrite Rabs_pos_eq in Herr by lra. lra.
  - destruct (Rcase_abs (100 - exp y)) as [Hneg | Hnn].
    + rewrite Rabs_left in Herr by assumption. lra.
    + lra.
Qed.

Lemma exact_exp_relative_error : exp_relative_error exp.
Proof.
  intros y. rewrite Rminus_diag, Rabs_R0.
  pose proof (exp_pos y). apply Rmult_le_pos; lra.
Qed.

(** C2 fails as stated, for the Euler scheme: with [s = 100] (the
    specification's scenario), one step and one path, whenever [math.log]
    returns a binary64 number and [np.exp] has a relative error of at most
    [2^-52], the simulator returns a price grid whose entry [S[0, 0]] is not
    [s]; and there are such library functions. *)
Lemma euler_initial_price_counterexample :
  (forall libm_log libm_exp : R -> R,
      binary64 (libm_log 100) -> exp_relative_error libm_exp ->
      exists Sg x,
        simulate_euler zero_norm2 libm_log libm_exp reference_model 1 1 1 false
        = Ok (Sg, None) /\
        at_ Sg 0 0 = Some x /\ x <> s reference_model) /\
  (exists libm_log libm_exp : R -> R,
      binary64 (libm_log 100) /\ exp_relative_error libm_exp).
Proof.
  split.
  - intros libm_log libm_exp Hlog Hexp.
    destruct (simulate_euler_returns zero_norm2 libm_log libm_exp
                reference_model 1 1 1 false reference_model_valid
                ltac:(lra) ltac:(lia)) as (Xs & Vs & Hrun).
    eexists; eexists. split; [exact Hrun |]. split; [reflexivity |].
    apply library_exp_not_100; assumption.
  - exists (fun _ => IZR log100_above / IZR pow2_50), exp.
    split; [apply log100_above_binary64 | apply exact_exp_relative_error].
Qed.

(** In exact arithmetic the round trip through the logarithm is the
    identity, and the Euler scheme starts at [s]. *)
Lemma simulate_euler_exact_arithmetic
      (norm2 : nat -> nat -> nat -> R) (self : Heston) (t : R)
      (steps paths : nat) (rv : bool) (j : nat) :
  valid self -> 0 < t -> (1 <= steps)%nat -> (j < paths)%nat ->
  exists Sg Vg,
    simulate_euler norm2 ln exp self t steps paths rv = Ok (returned rv Sg Vg) /\
    at_ Sg 0 j = Some (s self) /\ at_ Vg 0 j = Some (v self).
Proof.
  intros Hvalid Ht Hsteps Hj.
  destruct (simulate_euler_returns norm2 ln exp self t steps paths rv
              Hvalid Ht Hsteps) as (Xs & Vs & Hrun).
  eexists; eexists. split; [exact Hrun |]. split.
  - simpl map. rewrite at_first_row. unfold full.
    rewrite nth_error_map, nth_error_repeat by assumption. simpl.
    rewrite exp_ln by apply Hvalid. reflexivity.
  - apply at_full; assumption.
Qed.

Lemma initial_rows_witness :
  (exists Sg Vg,
      simulate_euler zero_norm2 ln exp reference_model 1 1 1 true
      = Ok (returned true Sg Vg) /\
      at_ Sg 0 0 = Some (exp (ln (s reference_model))) /\
      at_ Vg 0 0 = Some (v reference_model)) /\
  (exists Sg Vg,
      simulate_qe zero_norm2 zero_draws reference_model 1 1 1 true
      = Ok (returned true Sg Vg) /\
      at_ Sg 0 0 = Some (s reference_model) /\
      at_ Vg 0 0 = Some (v reference_model)) /\
  (forall out,
      simulate_exact zero_draws zero_draws zero_ncx2 iv_real_one iv_complex_one
                     derivative_zero brentq_left cmath_abs_cpython
                     reference_model 1 1 1 0.00001 5 true = Ok out ->
      exists Sg Vg,
        out = returned true Sg Vg /\
        at_ Sg 0 0 = Some (s reference_model) /\
        at_ Vg 0 0 = Some (v reference_model)).
Proof.
  apply (initial_rows zero_norm2 zero_draws zero_draws zero_ncx2 ln exp
           iv_real_one iv_complex_one derivative_zero brentq_left
           cmath_abs_cpython reference_model 1 1 1 0.00001 5 true 0).
  - unfold valid, reference_model; simpl. lra.
  - lra.
  - lia.
  - lia.
Defined.

(** ** The exact scheme at rest *)

Lemma bk_int_v_without_mass
      (iv_real : R -> R -> R) (iv_complex : R -> C -> C)
      (derivative : (R -> result C) -> R -> R -> nat -> result C)
      (brentq : (R -> result R) -> R -> R -> result R)
      (cmath_abs : result (C -> R))
      (self : Heston) (vprev vnext dt te sts u : R) :
  max_int_v vprev vnext dt <= 0 -> 0 <= u ->
  bk_int_v iv_real iv_complex derivative brentq cmath_abs self
           vprev vnext dt te sts u
  = Ok (max_int_v vprev vnext dt).
Proof.
  intros Hx Hu. unfold bk_int_v, _bk_prob.
  destruct (Rle_dec (max_int_v vprev vnext dt) 0) as [_ | H]; [| contradiction].
  cbn [bind]. destruct (Rle_dec 0 u) as [_ | H]; [reflexivity | contradiction].
Qed.

(** The exact simulator does return: from the variance [0], with
    chi-squared draws equal to [0], one step and one path. *)
Lemma simulate_exact_returns_at_rest :
  exists Sg Vg,
    simulate_exact zero_draws zero_draws zero_ncx2 iv_real_one iv_complex_one
                   derivative_zero brentq_left cmath_abs_cpython
                   rest_model 1 1 1 0.00001 5 true
    = Ok (Sg, Some Vg).
Proof.
  unfold simulate_exact, rest_model. cbn [s v kappa theta sigma rho r].
  change (INR 1) with 1.
  rewrite (pydiv_ok 1 1) by lra. cbn [bind].
  rewrite (pydiv_ok _ (0.3 ^ 2)) by lra. cbn [bind].
  match goal with
  | |- context [exp ?X] =>
      assert (Hexp : 0 < exp X < 1)
        by (split; [apply exp_pos |];
            apply Rlt_le_trans with (exp 0);
            [apply exp_increasing; lra | rewrite exp_0; lra]);
      set (E := exp X) in *
  end.
  assert (Hden : 0.3 ^ 2 * (1 - E) <> 0) by nra.
  rewrite !pydiv_ok by (assumption || lra). cbn [bind].
  cbn [exact_loop]. cbn [kappa theta sigma rho r].
  rewrite pydiv_ok by lra. cbn [bind].
  cbn [seq mapM]. unfold exact_next_v, columns, full. cbn [seq map repeat nth].
  unfold zero_ncx2, U_exact, zero_draws.
  rewrite bk_int_v_without_mass by (unfold max_int_v; lra).
  cbn [bind math_sqrt_array nth].
  rewrite math_sqrt_ok by (unfold max_int_v; lra). cbn [bind].
  rewrite math_sqrt_ok by lra. cbn [bind math_exp_array].
  eexists; eexists; reflexivity.
Qed.

(** ** The exact scheme under CPython *)

(** X21.  Under CPython, where [cmath.abs] does not exist: from a positive
    initial variance, with [kappa > 0], a horizon [t > 0] and non-negative
    noncentral chi-squared draws, the exact simulator returns no grid,
    whatever the numbers of steps and paths and the other collaborators. *)
Theorem simulate_exact_never_returns
        (norm1 uniform : nat -> nat -> R) (ncx2 : R -> R -> nat -> nat -> R)
        (iv_real : R -> R -> R) (iv_complex : R -> C -> C)
        (derivative : (R -> result C) -> R -> R -> nat -> result C)
        (brentq : (R -> result R) -> R -> R -> result R)
        (self : Heston) (t : R) (steps paths : nat) (te sts : R) (rv : bool) :
  0 < v self -> 0 < kappa self -> 0 < t ->
  (forall a b i j, 0 <= ncx2 a b i j) ->
  forall out,
    simulate_exact norm1 uniform ncx2 iv_real iv_complex derivative brentq
                   cmath_abs_cpython self t steps paths te sts rv <> Ok out.
Proof.
  intros Hv Hk Ht Hchi.
  apply (simulate_exact_needs_modulus norm1 uniform ncx2 iv_real iv_complex
           derivative brentq cmath_abs_cpython self t steps paths te sts rv
           AttributeError); [reflexivity | assumption ..].
Qed.

Lemma simulate_exact_never_returns_witness :
  0 < v reference_model /\
  forall out,
    simulate_exact zero_draws zero_draws zero_ncx2 iv_real_one iv_complex_one
                   derivative_zero brentq_left cmath_abs_cpython
                   reference_model 1 1 1 0.00001 5 true <> Ok out.
Proof.
  assert (Hv : 0 < v reference_model) by (unfold reference_model; simpl; lra).
  split; [exact Hv |].
  apply (simulate_exact_never_returns zero_draws zero_draws zero_ncx2 iv_real_one
           iv_complex_one derivative_zero brentq_left reference_model 1 1 1
           0.00001 5 true).
  - exact Hv.
  - unfold reference_model; simpl. lra.
  - lra.
  - intros a b i j. unfold zero_ncx2. lra.
Defined.

(** ** The further properties at concrete inputs *)

Lemma simulate_qe_shape_witness :
  exists Sg Vg,
    simulate_qe zero_norm2 zero_draws reference_model 1 1 1 true
    = Ok (returned true Sg Vg) /\
    has_shape Sg 2 1 /\ has_shape Vg 2 1.
Proof.
  apply (simulate_qe_shape zero_norm2 zero_draws reference_model 1 1 1 true).
  - lia.
  - unfold reference_model; simpl. lra.
  - unfold reference_model; simpl. lra.
Defined.

Lemma simulate_qe_prices_positive_witness :
  exists Sg Vg,
    simulate_qe zero_norm2 zero_draws reference_model 1 1 1 true
    = Ok (returned true Sg Vg) /\
    forall i j x, at_ Sg i j = Some x -> 0 < x.
Proof.
  apply (simulate_qe_prices_positive zero_norm2 zero_draws reference_model
           1 1 1 true).
  - unfold valid, reference_model; simpl. lra.
  - lra.
  - lia.
  - intros i j. unfold zero_draws. lra.
Defined.

Lemma simulate_euler_shape_witness :
  exists Sg Vg,
    simulate_euler zero_norm2 ln exp reference_model 1 1 1 true
    = Ok (returned true Sg Vg) /\
    has_shape Sg 2 1 /\ has_shape Vg 2 1.
Proof.
  apply (simulate_euler_shape zero_norm2 ln exp reference_model 1 1 1 true).
  - lia.
  - unfold reference_model; simpl. lra.
  - simpl. lra.
  - unfold reference_model; simpl. lra.
Defined.

Lemma rest_model_valid : valid rest_model.
Proof. unfold valid, rest_model; simpl. lra. Qed.

Lemma simulate_euler_truncation_witness :
  exists Sg Vg,
    simulate_euler zero_norm2 ln exp rest_model 1 1 1 true
    = Ok (returned true Sg Vg) /\
    at_ Vg 0 0 = Some 0 /\
    at_ Vg 1 0
    = Some (0 + kappa rest_model * theta rest_model * (1 / INR 1)).
Proof.
  destruct (simulate_euler_truncation zero_norm2 ln exp rest_model 1 1 1 true)
    as (Sg & Vg & Hrun & Htrunc).
  - lia.
  - unfold rest_model; simpl. lra.
  - simpl. lra.
  - unfold rest_model; simpl. lra.
  - destruct (simulate_euler_exact_arithmetic zero_norm2 rest_model 1 1 1 true 0
                rest_model_valid ltac:(lra) ltac:(lia) ltac:(lia))
      as (Sg' & Vg' & Hrun' & _ & HV0).
    rewrite Hrun in Hrun'. injection Hrun' as <- <-.
    exists Sg, Vg. split; [exact Hrun |].
    split; [exact HV0 |].
    apply (Htrunc 0%nat 0%nat 0); [lia | lia | exact HV0 | lra].
Defined.

Lemma simulate_euler_zero_horizon_witness :
  exists Sg Vg,
    simulate_euler zero_norm2 ln exp reference_model 0 1 1 true
    = Ok (returned true Sg Vg) /\
    forall i j,
      (i <= 1)%nat -> (j < 1)%nat ->
      at_ Vg i j = Some (v reference_model) /\
      at_ Sg i j = Some (exp (ln (s reference_model))).
Proof.
  apply (simulate_euler_zero_horizon zero_norm2 ln exp reference_model 1 1 true).
  - lia.
  - unfold reference_model; simpl. lra.
  - unfold reference_model; simpl. lra.
Defined.

Lemma simulate_euler_prices_positive_witness :
  exists Sg Vg,
    simulate_euler zero_norm2 ln exp reference_model 1 1 1 true
    = Ok (returned true Sg Vg) /\
    forall i j x, at_ Sg i j = Some x -> 0 < x.
Proof.
  apply (simulate_euler_prices_positive zero_norm2 ln exp reference_model
           1 1 1 true).
  - apply exp_pos.
  - lia.
  - unfold reference_model; simpl. lra.
  - simpl. lra.
  - unfold reference_model; simpl. lra.
Defined.

Lemma simulate_exact_single_path_witness :
  exists Sg Vg,
    simulate_exact zero_draws zero_draws zero_ncx2 iv_real_one iv_complex_one
                   derivative_zero brentq_left cmath_abs_cpython
                   rest_model 1 1 1 0.00001 5 true
    = Ok (Sg, Some Vg) /\
    (1%nat = 1%nat /\ 1%nat <> 0%nat /\ 1 <> 0 /\ kappa rest_model <> 0 /\
     sigma rest_model <> 0 /\ rho rest_model ^ 2 <= 1).
Proof.
  destruct simulate_exact_returns_at_rest as (Sg & Vg & Hrun).
  exists Sg, Vg. split; [exact Hrun |].
  exact (simulate_exact_single_path zero_draws zero_draws zero_ncx2 iv_real_one
           iv_complex_one derivative_zero brentq_left cmath_abs_cpython
           rest_model 1 1 1 0.00001 5 true (Sg, Some Vg) Hrun).
Defined.

Lemma simulate_exact_zero_division_witness :
  simulate_exact zero_draws zero_draws zero_ncx2 iv_real_one iv_complex_one
                 derivative_zero brentq_left cmath_abs_cpython
                 reference_model 0 1 1 0.00001 5 true
  = Raise ZeroDivisionError.
Proof.
  apply (simulate_exact_zero_division zero_draws zero_draws zero_ncx2 iv_real_one
           iv_complex_one derivative_zero brentq_left cmath_abs_cpython
           reference_model 0 1 1 0.00001 5 true).
  right. left. reflexivity.
Defined.

Lemma simulate_exact_shape_witness :
  exists Sg Vg,
    simulate_exact zero_draws zero_draws zero_ncx2 iv_real_one iv_complex_one
                   derivative_zero brentq_left cmath_abs_cpython
                   rest_model 1 1 1 0.00001 5 true
    = Ok (Sg, Some Vg) /\
    exists Sg' Vg',
      (Sg, Some Vg) = returned true Sg' Vg' /\
      has_shape Sg' 2 1 /\ has_shape Vg' 2 1.
Proof.
  destruct simulate_exact_returns_at_rest as (Sg & Vg & Hrun).
  exists Sg, Vg. split; [exact Hrun |].
  exact (simulate_exact_shape zero_draws zero_draws zero_ncx2 iv_real_one
           iv_complex_one derivative_zero brentq_left cmath_abs_cpython
           rest_model 1 1 1 0.00001 5 true (Sg, Some Vg) Hrun).
Defined.

Lemma simulate_exact_prices_positive_witness :
  exists Sg Vg,
    simulate_exact zero_draws zero_draws zero_ncx2 iv_real_one iv_complex_one
                   derivative_zero brentq_left cmath_abs_cpython
                   rest_model 1 1 1 0.00001 5 true
    = Ok (Sg, Some Vg) /\
    exists Sg' Vg',
      (Sg, Some Vg) = returned true Sg' Vg' /\
      forall i j x, at_ Sg' i j = Some x -> 0 < x.
Proof.
  destruct simulate_exact_returns_at_rest as (Sg & Vg & Hrun).
  exists Sg, Vg. split; [exact Hrun |].
  apply (simulate_exact_prices_positive zero_draws zero_draws zero_ncx2
           iv_real_one iv_complex_one derivative_zero brentq_left
           cmath_abs_cpython rest_model 1 1 1 0.00001 5 true (Sg, Some Vg)).
  - unfold rest_model; simpl. lra.
  - exact Hrun.
Defined.

Lemma heston_cf_zero_maturity_witness :
  _heston_cf (s reference_model) (v reference_model) (kappa reference_model)
             (theta reference_model) (sigma reference_model)
             (rho reference_model) (RtoC 1) 0
  = Ok (Cexp (RtoC 1 * RtoC (ln (s reference_model)) * Ci)%C).
Proof.
  apply (heston_cf_zero_maturity reference_model 1).
  unfold valid, reference_model; simpl. lra.
Defined.

Lemma bk_cf_at_zero_witness :
  _bk_cf iv_real_one iv_complex_one reference_model 0 0.04 0.04 1 = Ok (RtoC 1).
Proof.
  apply (bk_cf_at_zero iv_real_one iv_complex_one reference_model 0.04 0.04 1).
  - unfold valid, reference_model; simpl. lra.
  - lra.
  - lra.
  - lra.
  - intros nu x. reflexivity.
  - unfold iv_real_one. lra.
Defined.

Lemma heston_integrand_at_zero_witness :
  _heston_integrand_body [0; 1; 100; 100; 0.04; 2; 0.04; 0.3; -0.7]
  = Raise ZeroDivisionError /\
  _heston_integrand [0; 1; 100; 100; 0.04; 2; 0.04; 0.3; -0.7] = 0.
Proof.
  apply (heston_integrand_at_zero [0; 1; 100; 100; 0.04; 2; 0.04; 0.3; -0.7]).
  - left. reflexivity.
  - simpl. lra.
Defined.

Lemma call_price_array_witness :
  exists prices,
    call_price quad_not_converged reference_model (Scalar 1) (Array [90; 100; 110])
    = Ok (Array prices) /\
    length prices = length [(1, 90); (1, 100); (1, 110)] /\
    forall n x y,
      nth_error [(1, 90); (1, 100); (1, 110)] n = Some (x, y) ->
      exists p, nth_error prices n = Some p /\
                _call_price_scalar quad_not_converged reference_model x y = Ok p.
Proof.
  apply (call_price_array quad_not_converged reference_model (Scalar 1)
           (Array [90; 100; 110]) [(1, 90); (1, 100); (1, 110)]).
  - reflexivity.
  - intros x y _ H. discriminate H.
Defined.
